(** * celvalidator: rule resolution and evaluation

    A shallow embedding of [celvalidator/validator.go]: the rule
    resolver ([GetRulesFor], [filterEnabledRules]), the metadata factory
    ([NewValidationMetadata]), the reflective flattening ([flattenStruct])
    and the evaluation loop of [Validate].  The CEL engine is an external
    collaborator and enters as an interface ([CelEngine]). *)

From stdpp Require Import gmap strings list fin_maps.
From Stdlib Require Import ZArith Ascii.

Set Warnings "-register-all".

Open Scope Z_scope.
Open Scope string_scope.
Open Scope list_scope.

(** ** Go values seen through [reflect] *)

(** The values [obj any] can hold, with as much of their dynamic type as
    [reflect.Kind], [reflect.Type.Name] and the type switch of
    [inferType] look at.  A struct field carries its name, whether
    [CanInterface] holds for it (exported) and its value.

    [GoInterface n d] is what [reflect] sees in a field, or behind a
    pointer, whose static type is the interface type named [n] (empty
    for [any]) and which holds [d]: its kind is [Interface], whatever
    the kind of [d].  The record passed as [obj any] is never one, since
    a conversion to [any] keeps the dynamic value only.  A nil interface
    is not represented. *)
Inductive GoValue : Type :=
  | GoBool (b : bool)
  | GoInt (n : Z)
  | GoInt64 (n : Z)
  | GoString (s : string)
  | GoFloat32 (bits : Z)
  | GoFloat64 (bits : Z)
  | GoMapStringAny (entries : list (string * GoValue))
  | GoStruct (name : string) (fields : list (string * bool * GoValue))
  | GoPtr (target : GoValue)
  | GoNilPtr (elemName : string)
  | GoOther (typeName : string) (repr : string)
  | GoInterface (ifaceName : string) (dynamic : GoValue).

(** [reflect.Kind], as far as the code distinguishes kinds. *)
Inductive Kind : Type := KStruct | KPtr | KInterface | KOtherKind.

#[global] Instance Kind_eq_dec : EqDecision Kind.
Proof. solve_decision. Defined.

Definition kindOf (v : GoValue) : Kind :=
  match v with
  | GoStruct _ _ => KStruct
  | GoPtr _ | GoNilPtr _ => KPtr
  | GoInterface _ _ => KInterface
  | _ => KOtherKind
  end.

(** [value.Interface()]: the value as an [any]; for a value of kind
    [Interface] that is the value it holds. *)
Definition interfaceOf (v : GoValue) : GoValue :=
  match v with
  | GoInterface _ d => d
  | _ => v
  end.

(** [reflect.TypeOf(v).Name()]: the declared name, empty for unnamed
    types (pointers, map types). *)
Definition typeName (v : GoValue) : string :=
  match v with
  | GoBool _ => "bool"
  | GoInt _ => "int"
  | GoInt64 _ => "int64"
  | GoString _ => "string"
  | GoFloat32 _ => "float32"
  | GoFloat64 _ => "float64"
  | GoMapStringAny _ => ""
  | GoStruct n _ => n
  | GoPtr _ => ""
  | GoNilPtr _ => ""
  | GoOther n _ => n
  | GoInterface n _ => n
  end.

(** [getStructName]: one pointer level is removed, then [Name()]. *)
Definition getStructName (obj : GoValue) : string :=
  match obj with
  | GoPtr t => typeName t
  | GoNilPtr en => en
  | _ => typeName obj
  end.

(** ** Flattening *)

(** [for k, v := range nested { result[name+"."+k] = v }] *)
Definition mergeNested (name : string) (nested result : gmap string GoValue)
  : gmap string GoValue :=
  map_fold (λ k v acc, <[name +:+ "." +:+ k := v]> acc) result nested.

(** [flattenStruct].  [None] is a panic of [reflect]: [NumField] on a
    value that is not a struct after the single dereference (also the
    zero Value that [Elem] gives for a nil pointer).  The switch is on
    the kind of the field's [reflect.Value]: a field of struct type is
    flattened, every other field, one of interface type that holds a
    struct included, is stored by [value.Interface()]. *)
Fixpoint flattenStruct (obj : GoValue) : option (gmap string GoValue) :=
  let fields_loop :=
    fix loop (fs : list (string * bool * GoValue)) (result : gmap string GoValue)
      : option (gmap string GoValue) :=
      match fs with
      | [] => Some result
      | (name, canInterface, value) :: fs' =>
          if negb canInterface then loop fs' result
          else
            match value with
            | GoStruct _ _ =>
                match flattenStruct value with
                | Some nested => loop fs' (mergeNested name nested result)
                | None => None
                end
            | _ => loop fs' (<[name := interfaceOf value]> result)
            end
      end in
  match obj with
  | GoPtr (GoStruct _ fs) => fields_loop fs ∅
  | GoStruct _ fs => fields_loop fs ∅
  | _ => None
  end.

(** The loop of [flattenStruct] over the fields of a struct value, from
    the map built so far. *)
Fixpoint flattenFields (fs : list (string * bool * GoValue))
    (result : gmap string GoValue) : option (gmap string GoValue) :=
  match fs with
  | [] => Some result
  | (name, canInterface, value) :: fs' =>
      if negb canInterface then flattenFields fs' result
      else
        match value with
        | GoStruct _ _ =>
            match flattenStruct value with
            | Some nested => flattenFields fs' (mergeNested name nested result)
            | None => None
            end
        | _ => flattenFields fs' (<[name := interfaceOf value]> result)
        end
  end.

(** Go identifiers hold no dot. *)
Fixpoint dotFree (s : string) : bool :=
  match s with
  | EmptyString => true
  | String c s' => negb (Ascii.eqb c "."%char) && dotFree s'
  end.

Definition fieldName (f : string * bool * GoValue) : string := f.1.1.

(** A struct type as Go admits it: field names are identifiers and
    pairwise different. *)
Definition wellFormedFields (fs : list (string * bool * GoValue)) : Prop :=
  NoDup (fieldName <$> fs) ∧ Forall (λ f, dotFree (fieldName f) = true) fs.

(** The keys a field can own in the flattened map: its name, or a
    dotted path under its name. *)
Definition keyOf (name key : string) : Prop :=
  key = name ∨ ∃ k, key = name +:+ "." +:+ k.

(** [inferType]: the CEL type declared for a flattened value. *)
Inductive CelType : Type :=
  | CelMapStringDyn | CelString | CelInt | CelDouble | CelBool | CelDyn.

Definition inferType (val : GoValue) : CelType :=
  match val with
  | GoMapStringAny _ => CelMapStringDyn
  | GoString _ => CelString
  | GoInt _ | GoInt64 _ => CelInt
  | GoFloat32 _ | GoFloat64 _ => CelDouble
  | GoBool _ => CelBool
  | _ => CelDyn
  end.

(** ** Rules, metadata, results *)

Inductive RuleEntry : Type :=
  mkRuleEntry {
    Rule : string;
    Enabled : bool;
    FailureMessage : string;
    Then : list RuleEntry
  }.

(** [RuleSetMap]: StructName -> Operation -> Rules. *)
Abbreviation RuleSetMap := (gmap string (gmap string (list RuleEntry))).

Record ValidationMetadata : Type :=
  mkValidationMetadata {
    StructName : string;
    Operation : string;
    ChainPath : string;
    RuleIndex : Z;
    ParentRule : string
  }.

(** A Go [error] value by its message; [nil] is [None] of [option GoError]. *)
Inductive GoError : Type := mkError (msg : string).

Record ValidationResult : Type :=
  mkValidationResult {
    vrRule : string;
    Passed : bool;
    Error : option GoError;
    Message : string;
    Metadata : ValidationMetadata
  }.

(** ** Rule resolution *)

(** [filterEnabledRules]: the loop over [rule.Then] appends the filtered
    copy of each enabled child; the copy starts with no children. *)
Fixpoint filterEnabledRules (rule : RuleEntry) : RuleEntry :=
  let children_loop :=
    fix loop (cs : list RuleEntry) (acc : list RuleEntry) : list RuleEntry :=
      match cs with
      | [] => acc
      | child :: cs' =>
          if Enabled child then loop cs' (acc ++ [filterEnabledRules child])
          else loop cs' acc
      end in
  {| Rule := Rule rule;
     Enabled := Enabled rule;
     FailureMessage := FailureMessage rule;
     Then := children_loop (Then rule) [] |}.

(** One of the two bucket loops of [GetRulesFor], on the pair
    ([merged], [seen]). *)
Fixpoint mergeBucket (bucket : list RuleEntry)
    (st : list RuleEntry * gmap string bool) : list RuleEntry * gmap string bool :=
  match bucket with
  | [] => st
  | r :: bucket' =>
      let '(merged, seen) := st in
      match seen !! Rule r with
      | None =>
          if Enabled r
          then mergeBucket bucket' (merged ++ [filterEnabledRules r], <[Rule r := true]> seen)
          else mergeBucket bucket' st
      | Some _ => mergeBucket bucket' st
      end
  end.

Definition GetRulesFor (obj : GoValue) (operation : string) (rules : RuleSetMap)
  : list RuleEntry :=
  let name := getStructName obj in
  match rules !! name with
  | Some structRules =>
      let st0 : list RuleEntry * gmap string bool := ([], ∅) in
      let st1 :=
        match structRules !! "Default" with
        | Some defaultRules => mergeBucket defaultRules st0
        | None => st0
        end in
      let st2 :=
        match structRules !! operation with
        | Some opRules => mergeBucket opRules st1
        | None => st1
        end in
      fst st2
  | None => []
  end.

(** ** Metadata factory *)

Definition NewValidationMetadata (obj : GoValue) (operation : string)
    (rules : RuleSetMap) : ValidationMetadata :=
  let structName := getStructName obj in
  let op :=
    match rules !! structName with
    | Some structRules =>
        if String.eqb operation ""
        then
          if Z.eqb (Z.of_nat (size structRules)) 1
          then map_fold (λ k _ _, k) operation structRules
          else "Default"
        else operation
    | None => "Default"
    end in
  {| StructName := structName;
     Operation := op;
     ChainPath := "";
     RuleIndex := -1;
     ParentRule := "" |}.

(** ** The expression engine *)

(** The part of cel-go that [Validate] calls.  [NewEnv] receives the
    declarations (name and inferred type of every flattened field);
    [Compile] stands for [env.Compile] followed by [iss.Err()];
    [Eval] returns [out.Value()] and the execution error. *)
Class CelEngine : Type := {
  Env : Type;
  Ast : Type;
  Prg : Type;
  NewEnv : gmap string CelType → Env + GoError;
  Compile : Env → string → Ast + GoError;
  Program : Env → Ast → Prg + GoError;
  Eval : Prg → gmap string GoValue → GoValue * option GoError
}.

(** ** Validator *)

Record Validator : Type := mkValidator { partialEval : bool }.

Definition ValidatorOption : Type := Validator → Validator.

Definition NewValidator (opts : list ValidatorOption) : Validator :=
  fold_left (λ v opt, opt v) opts {| partialEval := false |}.

Definition WithPartialEval : ValidatorOption :=
  λ _, {| partialEval := true |}.

Definition extendChainPath (current next : string) : string :=
  if String.eqb current "" then next else current +:+ " > " +:+ next.

(** The variables the closure [eval] captures and mutates. *)
Record EvalState : Type :=
  mkEvalState {
    results : list ValidationResult;
    seen : gmap string bool
  }.

(** [seen[rule]] of a [map[string]bool]: [false] for a missing key. *)
Definition seenRule (st : EvalState) (rule : string) : bool :=
  default false (seen st !! rule).

Definition markSeen (rule : string) (st : EvalState) : EvalState :=
  {| results := results st; seen := <[rule := true]> (seen st) |}.

Definition appendResult (r : ValidationResult) (st : EvalState) : EvalState :=
  {| results := results st ++ [r]; seen := seen st |}.

(** [out.Value() == true] on an interface value. *)
Definition isTrue (out : GoValue) : bool :=
  match out with
  | GoBool true => true
  | _ => false
  end.

Section Evaluation.
Context `{engine : CelEngine}.
Variable v : Validator.
Variable env : Env.
Variable vars : gmap string GoValue.

(** The result appended on a compile or program failure. *)
Definition setupFailure (marker : string) (entry : RuleEntry) (i : Z)
    (metadata : ValidationMetadata) (err : GoError) : ValidationResult :=
  {| vrRule := Rule entry;
     Passed := false;
     Error := Some err;
     Message := "";
     Metadata :=
       {| StructName := StructName metadata;
          Operation := Operation metadata;
          ChainPath := ChainPath metadata +:+ marker;
          RuleIndex := i;
          ParentRule := ParentRule metadata |} |}.

(** The result appended after [prg.Eval]. *)
Definition evalResult (entry : RuleEntry) (i : Z)
    (metadata : ValidationMetadata) (out : GoValue) (err : option GoError)
  : ValidationResult :=
  let passed := bool_decide (err = None) && isTrue out in
  {| vrRule := Rule entry;
     Passed := passed;
     Error := err;
     Message := if negb passed then FailureMessage entry else "";
     Metadata :=
       {| StructName := StructName metadata;
          Operation := Operation metadata;
          ChainPath := ChainPath metadata;
          RuleIndex := i;
          ParentRule := ParentRule metadata |} |}.

Definition childMetadataOf (entry : RuleEntry) (metadata : ValidationMetadata)
  : ValidationMetadata :=
  {| StructName := StructName metadata;
     Operation := Operation metadata;
     ChainPath := extendChainPath (ChainPath metadata) "then";
     RuleIndex := -1;
     ParentRule := Rule entry |}.

(** One iteration of the loop of [eval], for the entry at index [i].
    The second component is the error of a [return] out of [eval];
    [None] is falling through to the next iteration. *)
Fixpoint evalEntry (entry : RuleEntry) (i : Z) (metadata : ValidationMetadata)
    (st : EvalState) {struct entry} : EvalState * option GoError :=
  let evalThen :=
    fix loop (entries : list RuleEntry) (j : Z) (md : ValidationMetadata)
        (st : EvalState) : EvalState * option GoError :=
      match entries with
      | [] => (st, None)
      | e :: entries' =>
          match evalEntry e j md st with
          | (st', Some err) => (st', Some err)
          | (st', None) => loop entries' (j + 1) md st'
          end
      end in
  if negb (Enabled entry) || seenRule st (Rule entry) then (st, None)
  else
    let st := markSeen (Rule entry) st in
    match Compile env (Rule entry) with
    | inr issErr =>
        let st := appendResult
          (setupFailure " > compileError" entry i metadata issErr) st in
        if negb (partialEval v) then (st, Some issErr) else (st, None)
    | inl ast =>
        match Program env ast with
        | inr err =>
            let st := appendResult
              (setupFailure " > programError" entry i metadata err) st in
            if negb (partialEval v) then (st, Some err) else (st, None)
        | inl prg =>
            let '(out, err) := Eval prg vars in
            let validationResult := evalResult entry i metadata out err in
            let passed := Passed validationResult in
            let st := appendResult validationResult st in
            if passed && Z.ltb 0 (Z.of_nat (length (Then entry))) then
              let childMetadata := childMetadataOf entry metadata in
              match evalThen (Then entry) 0 childMetadata st with
              | (st', Some err) =>
                  if negb (partialEval v) then (st', Some err) else (st', None)
              | (st', None) => (st', None)
              end
            else (st, None)
        end
    end.

(** The closure [eval]: the loop over [entries], from index [i]. *)
Fixpoint evalFrom (entries : list RuleEntry) (i : Z) (metadata : ValidationMetadata)
    (st : EvalState) : EvalState * option GoError :=
  match entries with
  | [] => (st, None)
  | e :: entries' =>
      match evalEntry e i metadata st with
      | (st', Some err) => (st', Some err)
      | (st', None) => evalFrom entries' (i + 1) metadata st'
      end
  end.

Definition eval (entries : list RuleEntry) (metadata : ValidationMetadata)
    (st : EvalState) : EvalState * option GoError :=
  evalFrom entries 0 metadata st.

End Evaluation.

Section Validate.
Context `{engine : CelEngine}.

(** [buildEnv]: [None] is the panic of [flattenStruct]. *)
Definition buildEnv (v : Validator) (obj : GoValue)
  : option ((Env * gmap string GoValue) + GoError) :=
  match flattenStruct obj with
  | None => None
  | Some fields =>
      let declarations := inferType <$> fields in
      match NewEnv declarations with
      | inr err => Some (inr err)
      | inl env => Some (inl (env, fields))
      end
  end.

(** [Validate]: the result slice is [None] when the Go code returns a
    nil slice; the outer [None] is a panic. *)
Definition Validate (v : Validator) (obj : GoValue) (rules : list RuleEntry)
    (metadata : ValidationMetadata)
  : option (option (list ValidationResult) * option GoError) :=
  match buildEnv v obj with
  | None => None
  | Some (inr err) => Some (None, Some err)
  | Some (inl (env, vars)) =>
      let st0 := {| results := []; seen := ∅ |} in
      let '(st, err) := eval v env vars rules metadata st0 in
      Some (Some (results st), err)
  end.

End Validate.

(** ** Vocabulary for the statements *)

(** Induction on rule trees, with the children covered by [Forall]. *)
Fixpoint RuleEntry_tree_ind (P : RuleEntry → Prop)
    (step : ∀ r, Forall P (Then r) → P r) (r : RuleEntry) : P r :=
  match r as r0 return P r0 with
  | mkRuleEntry text en msg children =>
      step (mkRuleEntry text en msg children)
        ((fix go (l : list RuleEntry) : Forall P l :=
            match l with
            | [] => List.Forall_nil P
            | c :: l' => List.Forall_cons P c l' (RuleEntry_tree_ind P step c) (go l')
            end) children)
  end.

(** An entry and all its descendants, in the order [eval] meets them. *)
Fixpoint subentries (r : RuleEntry) : list RuleEntry :=
  r :: (fix go (l : list RuleEntry) : list RuleEntry :=
          match l with
          | [] => []
          | c :: l' => subentries c ++ go l'
          end) (Then r).

Definition allEntries (l : list RuleEntry) : list RuleEntry :=
  flat_map subentries l.

(** The resolver as the specification words it: a disabled child and
    its subtree are dropped, an enabled child is kept with its own
    pruned children. *)
Fixpoint pruneDisabled (r : RuleEntry) : RuleEntry :=
  {| Rule := Rule r;
     Enabled := Enabled r;
     FailureMessage := FailureMessage r;
     Then := (fix go (l : list RuleEntry) : list RuleEntry :=
                match l with
                | [] => []
                | c :: l' => if Enabled c then pruneDisabled c :: go l' else go l'
                end) (Then r) |}.

Definition enabledOnly (l : list RuleEntry) : list RuleEntry :=
  filter (λ r, Enabled r = true) l.

(** First occurrence wins: an entry is kept unless an entry with the
    same expression text was kept before it. *)
Definition keepFirst (kept : list RuleEntry) (r : RuleEntry) : list RuleEntry :=
  if bool_decide (Rule r ∈ Rule <$> kept) then kept else kept ++ [r].

Definition dedupByRule (l : list RuleEntry) : list RuleEntry :=
  fold_left keepFirst l [].

(** Enabled entries of the Default bucket, then of the operation bucket,
    deduplicated by text, each pruned of its disabled descendants. *)
Definition mergedRules (obj : GoValue) (operation : string) (rules : RuleSetMap)
  : list RuleEntry :=
  match rules !! getStructName obj with
  | None => []
  | Some structRules =>
      pruneDisabled <$>
        dedupByRule (enabledOnly (default [] (structRules !! "Default")) ++
                     enabledOnly (default [] (structRules !! operation)))
  end.

Section EvalVocabulary.
Context `{engine : CelEngine}.
Variable v : Validator.
Variable env : Env.
Variable vars : gmap string GoValue.

(** The error with which an expression fails before execution, if any. *)
Definition setupError (text : string) : option GoError :=
  match Compile env text with
  | inr e => Some e
  | inl ast =>
      match Program env ast with
      | inr e => Some e
      | inl _ => None
      end
  end.

(** The result an evaluated entry leaves, whichever stage it reaches. *)
Definition resultOf (entry : RuleEntry) (i : Z) (md : ValidationMetadata)
  : ValidationResult :=
  match Compile env (Rule entry) with
  | inr e => setupFailure " > compileError" entry i md e
  | inl ast =>
      match Program env ast with
      | inr e => setupFailure " > programError" entry i md e
      | inl prg => evalResult entry i md (Eval prg vars).1 (Eval prg vars).2
      end
  end.

(** The state right after an entry's own result is appended. *)
Definition afterOwn (entry : RuleEntry) (i : Z) (md : ValidationMetadata)
    (st : EvalState) : EvalState :=
  appendResult (resultOf entry i md) (markSeen (Rule entry) st).

(** The guard of the loop body: [!entry.Enabled || seen[entry.Rule]]. *)
Definition skipped (entry : RuleEntry) (st : EvalState) : bool :=
  negb (Enabled entry) || seenRule st (Rule entry).

(** An error leaves [eval] only when partial evaluation is off. *)
Definition halts (oe : option GoError) : option GoError :=
  if negb (partialEval v) then oe else None.

(** Every result is the result of an enabled entry of the tree. *)
Definition fromEnabledEntry (rules : list RuleEntry) (r : ValidationResult) : Prop :=
  ∃ entry i md,
    entry ∈ allEntries rules ∧ Enabled entry = true ∧ r = resultOf entry i md.

(** A result whose expression compiles and builds. *)
Definition reachedExecution (r : ValidationResult) : Prop :=
  setupError (vrRule r) = None.

(** The new results of a run and its error: with partial evaluation
    the error is nil; without it, either no new result is a setup
    failure and the error is nil, or the last new result is the only
    setup failure and its error is the one returned. *)
Definition runOutcome (st st' : EvalState) (oe : option GoError) : Prop :=
  ∃ new,
    results st' = results st ++ new ∧
    (partialEval v = true → oe = None) ∧
    match oe with
    | None => partialEval v = false → Forall reachedExecution new
    | Some e =>
        ∃ new' r,
          new = new' ++ [r] ∧ Forall reachedExecution new' ∧
          setupError (vrRule r) = Some e ∧ Error r = Some e ∧ Passed r = false
    end.

End EvalVocabulary.

(** The seen set holds exactly the expression texts of the results,
    each of which occurs once. *)
Definition seenMatchesResults (st : EvalState) : Prop :=
  NoDup (vrRule <$> results st) ∧
  length (results st) = size (seen st) ∧
  ∀ t, seen st !! t =
         if bool_decide (t ∈ vrRule <$> results st) then Some true else None.

(** The state [Validate] starts [eval] from. *)
Definition initialState : EvalState := {| results := []; seen := ∅ |}.

(** ** Vocabulary for the further properties *)

(** The values [flattenStruct] accepts: a struct, or a pointer to one. *)
Definition isStructOrPtr (obj : GoValue) : bool :=
  match obj with
  | GoStruct _ _ => true
  | GoPtr (GoStruct _ _) => true
  | _ => false
  end.

Section ProvenanceVocabulary.
Context `{engine : CelEngine}.
Variable env : Env.
Variable vars : gmap string GoValue.





End ProvenanceVocabulary.

(** ** A small engine instance

    Expressions are field references: a declared field name compiles and
    evaluates to the field's value, an undeclared one is a compile
    error; ["1/0"] compiles and fails at execution; ["!build"] compiles
    and fails when the program is built.  An environment that declares a
    field named ["Reserved"] cannot be built. *)
Module Toy.

Definition compile (decls : gmap string CelType) (s : string) : string + GoError :=
  if String.eqb s "1/0" || String.eqb s "!build" then inl s
  else match decls !! s with
       | Some _ => inl s
       | None => inr (mkError ("undeclared reference to " +:+ s))
       end.

Definition program (decls : gmap string CelType) (a : string) : string + GoError :=
  if String.eqb a "!build" then inr (mkError "program construction failed")
  else inl a.

Definition run (p : string) (vars : gmap string GoValue) : GoValue * option GoError :=
  if String.eqb p "1/0" then (GoBool false, Some (mkError "division by zero"))
  else match vars !! p with
       | Some x => (x, None)
       | None => (GoBool false, Some (mkError ("no such attribute " +:+ p)))
       end.

Definition newEnv (decls : gmap string CelType) : gmap string CelType + GoError :=
  match decls !! "Reserved" with
  | Some _ => inr (mkError "reserved identifier")
  | None => inl decls
  end.

Definition engine : CelEngine :=
  {| Env := gmap string CelType;
     Ast := string;
     Prg := string;
     NewEnv := newEnv;
     Compile := compile;
     Program := program;
     Eval := run |}.

Definition rule (text : string) (children : list RuleEntry) : RuleEntry :=
  {| Rule := text; Enabled := true; FailureMessage := "failed: " +:+ text;
     Then := children |}.

Definition disabled (text : string) (children : list RuleEntry) : RuleEntry :=
  {| Rule := text; Enabled := false; FailureMessage := "failed: " +:+ text;
     Then := children |}.

Definition sample : GoValue :=
  GoStruct "Sample"
    [("Active", true, GoBool true);
     ("Blocked", true, GoBool false);
     ("Age", true, GoInt 21);
     ("secret", false, GoString "x");
     ("Address", true, GoStruct "Address" [("Verified", true, GoBool true)]);
     ("Owner", true, GoPtr (GoStruct "Owner" [("Known", true, GoBool true)]))].

Definition md0 : ValidationMetadata :=
  {| StructName := "Sample"; Operation := "Create"; ChainPath := "";
     RuleIndex := -1; ParentRule := "" |}.

(** The same record with the owner held by value. *)
Definition samplePlainOwner : GoValue :=
  GoStruct "Sample"
    [("Active", true, GoBool true);
     ("Blocked", true, GoBool false);
     ("Age", true, GoInt 21);
     ("secret", false, GoString "x");
     ("Address", true, GoStruct "Address" [("Verified", true, GoBool true)]);
     ("Owner", true, GoStruct "Owner" [("Known", true, GoBool true)])].

(** A record with a field of type [any] that holds a struct, a field of
    that struct type, a pointer to such a struct and an unexported
    field. *)
Definition inner : GoValue := GoStruct "Inner" [("X", true, GoInt 1)].

Definition holderFields : list (string * bool * GoValue) :=
  [("Payload", true, GoInterface "" inner);
   ("Inner", true, inner);
   ("Ref", true, GoPtr inner);
   ("hidden", false, GoString "x")].

Definition holder : GoValue := GoStruct "Holder" holderFields.

Definition unbuildable : GoValue :=
  GoStruct "Clash" [("Reserved", true, GoInt 1)].

Definition fields : gmap string GoValue := default ∅ (flattenStruct sample).
Definition decls : gmap string CelType := inferType <$> fields.

Definition strict : Validator := NewValidator [].
Definition lenient : Validator := NewValidator [WithPartialEval].

Definition parent : RuleEntry :=
  rule "Active" [rule "Address.Verified" []; disabled "Age" []].

Definition rules1 : list RuleEntry :=
  [parent; rule "1/0" []; rule "Active" []; rule "Nope" []; rule "Age" []].

Definition resultsOf (o : option (option (list ValidationResult) * option GoError))
  : list ValidationResult :=
  match o with
  | Some (Some rs, _) => rs
  | _ => []
  end.

Definition errorOf (o : option (option (list ValidationResult) * option GoError))
  : option GoError :=
  match o with
  | Some (_, e) => e
  | None => None
  end.

Definition result (text : string) (passed : bool) (err : option GoError)
    (message path : string) (i : Z) (parentText : string) : ValidationResult :=
  {| vrRule := text; Passed := passed; Error := err; Message := message;
     Metadata := {| StructName := "Sample"; Operation := "Create";
                    ChainPath := path; RuleIndex := i;
                    ParentRule := parentText |} |}.

Definition activeResult : ValidationResult :=
  result "Active" true None "" "" 0 "".
Definition verifiedResult : ValidationResult :=
  result "Address.Verified" true None "" "then" 0 "Active".
Definition divisionResult : ValidationResult :=
  result "1/0" false (Some (mkError "division by zero")) "failed: 1/0" "" 1 "".
Definition undeclaredResult : ValidationResult :=
  result "Nope" false (Some (mkError "undeclared reference to Nope")) ""
    " > compileError" 3 "".
Definition ageResult : ValidationResult :=
  result "Age" false None "failed: Age" "" 4 "".

Definition strictRun := @Validate engine strict sample rules1 md0.
Definition lenientRun := @Validate engine lenient sample rules1 md0.

Definition repo : RuleSetMap :=
  {[ "Sample" :=
       {[ "Default" :=
            [rule "Email" [rule "A" []; disabled "B" [rule "C" []]];
             disabled "Age" []];
          "Create" := [rule "Email" []; rule "IsActive" []] ]} ]}.

End Toy.

(** * Properties *)

(** ** Rule trees *)

Lemma subentries_eq r : subentries r = r :: allEntries (Then r).
Proof. by destruct r as [text en msg children]. Qed.

Lemma allEntries_cons e l :
  allEntries (e :: l) = e :: allEntries (Then e) ++ allEntries l.
Proof. unfold allEntries at 1; simpl. by rewrite subentries_eq. Qed.

(** ** Strings *)

Lemma string_app_nil_r (s : string) : s +:+ "" = s.
Proof.
  induction s as [|a s IH]; [done|].
  change (String a (s +:+ "") = String a s). by rewrite IH.
Qed.

(** ** Lists *)

(** In a list whose elements before the last all satisfy [P], an
    element that does not satisfy [P] is the last one. *)
Lemma last_is_only_exception {A} (P : A → Prop) (l1 l2 front : list A) (x y : A) :
  l1 ++ x :: l2 = front ++ [y] → Forall P front → ¬ P x →
  l2 = [] ∧ l1 = front ∧ x = y.
Proof.
  revert front. induction l1 as [|a l1 IH]; intros front Heq Hfront Hx.
  - destruct front as [|b front]; cbn in Heq.
    + by injection Heq as -> ->.
    + injection Heq as -> _. by apply Forall_cons in Hfront as [? _].
  - destruct front as [|b front]; cbn in Heq.
    + injection Heq as _ Heq. by destruct l1.
    + injection Heq as -> Heq. apply Forall_cons in Hfront as [_ Hfront].
      destruct (IH front Heq Hfront Hx) as (-> & -> & ->). done.
Qed.

(** ** The evaluation loop *)

Section EvalFacts.
Context `{engine : CelEngine}.
Variable v : Validator.
Variable env : Env.
Variable vars : gmap string GoValue.

Local Abbreviation evalEntry' := (evalEntry v env vars).
Local Abbreviation evalFrom' := (evalFrom v env vars).
Local Abbreviation resultOf' := (resultOf env vars).
Local Abbreviation afterOwn' := (afterOwn env vars).
Local Abbreviation setupError' := (setupError env).
Local Abbreviation halts' := (halts v).

(** [evalEntry] in terms of the loop [evalFrom]. *)
Lemma evalEntry_unfold entry i md st :
  evalEntry' entry i md st =
    if skipped entry st then (st, None)
    else
      match setupError' (Rule entry) with
      | Some e => (afterOwn' entry i md st, halts' (Some e))
      | None =>
          if Passed (resultOf' entry i md) && Z.ltb 0 (Z.of_nat (length (Then entry)))
          then
            let r := evalFrom' (Then entry) 0 (childMetadataOf entry md)
                       (afterOwn' entry i md st) in
            (r.1, halts' r.2)
          else (afterOwn' entry i md st, None)
      end.
Proof.
  destruct entry as [text en msg children].
  unfold skipped, afterOwn, resultOf, setupError,
    halts.
  cbn [evalEntry Rule Enabled Then FailureMessage].
  destruct (negb en || seenRule st text); [done|].
  destruct (Compile env text) as [ast|e]; [|by destruct (negb (partialEval v))].
  destruct (Program env ast) as [prg|e]; [|by destruct (negb (partialEval v))].
  destruct (Eval prg vars) as [out err]; cbn [fst snd].
  match goal with |- context [if ?c then _ else _] => destruct c end; [|done].
  match goal with
  | |- context [evalFrom v env vars children 0 ?m ?s] =>
      change ((fix loop (entries : list RuleEntry) (j : Z) (md0 : ValidationMetadata)
                (st0 : EvalState) {struct entries} : EvalState * option GoError :=
                match entries with
                | [] => (st0, None)
                | e :: entries' =>
                    match evalEntry' e j md0 st0 with
                    | (st', Some err0) => (st', Some err0)
                    | (st', None) => loop entries' (j + 1) md0 st'
                    end
                end) children 0 m s)
        with (evalFrom' children 0 m s)
  end.
  destruct (evalFrom' children 0 _ _) as [st' [e|]]; cbn [fst snd];
    by destruct (negb (partialEval v)).
Qed.

Lemma evalFrom_cons e l i md st :
  evalFrom' (e :: l) i md st =
    match evalEntry' e i md st with
    | (st', Some err) => (st', Some err)
    | (st', None) => evalFrom' l (i + 1) md st'
    end.
Proof. reflexivity. Qed.

(** *** A relational induction principle for [eval]

    A relation between the state before, the state after and the
    returned error holds of every run when it holds of the empty run
    and of an entry's own step, composes along runs that did not
    return an error, and survives the [!v.partialEval] guard.  The
    entries met are those of the tree, so a property [Q] of all of
    them may be used. *)
Section RelInd.
Variable R : EvalState → EvalState → option GoError → Prop.
Variable Q : RuleEntry → Prop.
Hypothesis R_refl : ∀ st, R st st None.
Hypothesis R_fail : ∀ entry i md st e,
  Q entry → skipped entry st = false → setupError' (Rule entry) = Some e →
  R st (afterOwn' entry i md st) (halts' (Some e)).
Hypothesis R_exec : ∀ entry i md st,
  Q entry → skipped entry st = false → setupError' (Rule entry) = None →
  R st (afterOwn' entry i md st) None.
Hypothesis R_trans : ∀ st1 st2 st3 oe,
  R st1 st2 None → R st2 st3 oe → R st1 st3 oe.
Hypothesis R_halts : ∀ st st' oe, R st st' oe → R st st' (halts' oe).

Local Abbreviation entryRun :=
  (λ entry : RuleEntry,
     (∀ e, e ∈ subentries entry → Q e) →
     ∀ i md st, R st (evalEntry' entry i md st).1 (evalEntry' entry i md st).2).

Lemma evalFrom_run l :
  Forall entryRun l → (∀ e, e ∈ allEntries l → Q e) →
  ∀ i md st, R st (evalFrom' l i md st).1 (evalFrom' l i md st).2.
Proof.
  induction 1 as [|e l He _ IH]; intros HQ i md st; [apply R_refl|].
  rewrite evalFrom_cons.
  assert (HQe : ∀ e', e' ∈ subentries e → Q e').
  { intros e' He'. apply HQ. unfold allEntries; simpl.
    apply elem_of_app. by left. }
  assert (HQl : ∀ e', e' ∈ allEntries l → Q e').
  { intros e' He'. apply HQ. unfold allEntries; simpl.
    apply elem_of_app. by right. }
  specialize (He HQe i md st).
  destruct (evalEntry' e i md st) as [st' [err|]]; cbn [fst snd] in *; [done|].
  eapply R_trans; [exact He|]. by apply IH.
Qed.

Lemma evalEntry_run entry : entryRun entry.
Proof.
  induction entry as [entry IH] using RuleEntry_tree_ind.
  intros HQ i md st. rewrite evalEntry_unfold.
  assert (Qe : Q entry).
  { apply HQ. rewrite subentries_eq. left. }
  destruct (skipped entry st) eqn:Hskip; [apply R_refl|].
  destruct (setupError' (Rule entry)) as [e|] eqn:Hsetup; cbn [fst snd].
  { by apply R_fail. }
  match goal with |- context [if ?c then _ else _] => destruct c end;
    cbn [fst snd]; [|by apply R_exec].
  eapply R_trans; [by apply R_exec|].
  apply R_halts. apply evalFrom_run; [done|].
  intros e' He'. apply HQ. rewrite subentries_eq. by right.
Qed.

Lemma eval_run l :
  (∀ e, e ∈ allEntries l → Q e) →
  ∀ i md st, R st (evalFrom' l i md st).1 (evalFrom' l i md st).2.
Proof.
  intros HQ. apply evalFrom_run; [|done].
  apply Forall_forall. intros e _. apply evalEntry_run.
Qed.
End RelInd.

(** *** What one step does to the state *)

Lemma vrRule_resultOf entry i md : vrRule (resultOf' entry i md) = Rule entry.
Proof.
  unfold resultOf. destruct (Compile env (Rule entry)) as [ast|e]; [|done].
  by destruct (Program env ast).
Qed.

Lemma results_afterOwn entry i md st :
  results (afterOwn' entry i md st) = results st ++ [resultOf' entry i md].
Proof. reflexivity. Qed.

Lemma seen_afterOwn entry i md st :
  seen (afterOwn' entry i md st) = <[Rule entry := true]> (seen st).
Proof. reflexivity. Qed.

Lemma skipped_false entry st :
  skipped entry st = false ↔ Enabled entry = true ∧ seenRule st (Rule entry) = false.
Proof.
  unfold skipped. destruct (Enabled entry), (seenRule st (Rule entry)); cbn; intuition congruence.
Qed.

(** A result of an expression that fails before execution. *)
Lemma resultOf_setup_failure entry i md e :
  setupError' (Rule entry) = Some e →
  Error (resultOf' entry i md) = Some e ∧ Passed (resultOf' entry i md) = false ∧
  Message (resultOf' entry i md) = "".
Proof.
  unfold setupError, resultOf.
  destruct (Compile env (Rule entry)) as [ast|e']; [|naive_solver].
  destruct (Program env ast) as [prg|e']; naive_solver.
Qed.

(** A result of an expression that reaches execution. *)
Lemma resultOf_executed entry i md ast prg :
  Compile env (Rule entry) = inl ast → Program env ast = inl prg →
  resultOf' entry i md = evalResult entry i md (Eval prg vars).1 (Eval prg vars).2.
Proof. unfold resultOf. by intros -> ->. Qed.

(** *** Where results come from *)

Lemma eval_results_origin rules l i md st :
  (∀ e, e ∈ allEntries l → e ∈ allEntries rules) →
  Forall (fromEnabledEntry env vars rules) (results st) →
  Forall (fromEnabledEntry env vars rules) (results (evalFrom' l i md st).1).
Proof.
  intros Hsub.
  apply (eval_run
           (λ st st' _, Forall (fromEnabledEntry env vars rules) (results st) →
                        Forall (fromEnabledEntry env vars rules) (results st'))
           (λ e, e ∈ allEntries rules)); try done.
  - intros entry j md' st0 e He [Hen _]%skipped_false _ Hst.
    rewrite results_afterOwn. apply Forall_app. split; [done|].
    apply Forall_singleton. by exists entry, j, md'.
  - intros entry j md' st0 He [Hen _]%skipped_false _ Hst.
    rewrite results_afterOwn. apply Forall_app. split; [done|].
    apply Forall_singleton. by exists entry, j, md'.
  - naive_solver.
Qed.

(** *** The seen set and the results *)

Lemma seenMatchesResults_initial : seenMatchesResults initialState.
Proof.
  split; [constructor|]. split; [done|].
  intros t. cbn. rewrite lookup_empty. rewrite bool_decide_eq_false_2; [done|].
  apply not_elem_of_nil.
Qed.

Lemma seenMatchesResults_step entry i md st :
  skipped entry st = false → seenMatchesResults st →
  seenMatchesResults (afterOwn' entry i md st).
Proof.
  intros [_ Hunseen]%skipped_false (Hnd & Hlen & Hseen).
  assert (Hnew : Rule entry ∉ vrRule <$> results st).
  { intros Hin. unfold seenRule in Hunseen. rewrite Hseen in Hunseen.
    by rewrite bool_decide_eq_true_2 in Hunseen. }
  assert (Hnone : seen st !! Rule entry = None).
  { rewrite Hseen. by rewrite bool_decide_eq_false_2. }
  unfold seenMatchesResults.
  rewrite results_afterOwn, seen_afterOwn, fmap_app. cbn [fmap list_fmap].
  rewrite vrRule_resultOf.
  split; [|split].
  - apply NoDup_app. split; [done|]. split; [|apply NoDup_singleton].
    intros t Ht ?%list_elem_of_singleton. by subst.
  - rewrite length_app, map_size_insert_None by done. cbn [length]. lia.
  - intros t. rewrite lookup_insert. case_decide as Heq.
    + subst t. rewrite bool_decide_eq_true_2; [done|].
      apply elem_of_app. right. apply list_elem_of_singleton. done.
    + rewrite Hseen.
      rewrite (bool_decide_ext (t ∈ vrRule <$> results st)
                 (t ∈ (vrRule <$> results st) ++ [Rule entry])); [done|].
      rewrite elem_of_app, list_elem_of_singleton. intuition congruence.
Qed.

Lemma eval_seenMatchesResults l i md st :
  seenMatchesResults st → seenMatchesResults (evalFrom' l i md st).1.
Proof.
  apply (eval_run (λ st st' _, seenMatchesResults st → seenMatchesResults st')
           (λ _, True)); try done.
  - intros entry j md' st0 e _ Hskip _. by apply seenMatchesResults_step.
  - intros entry j md' st0 _ Hskip _. by apply seenMatchesResults_step.
  - naive_solver.
Qed.

(** *** How a run ends *)

Lemma eval_runOutcome l i md st :
  runOutcome v env st (evalFrom' l i md st).1 (evalFrom' l i md st).2.
Proof.
  apply (eval_run (runOutcome v env) (λ _, True)); try done.
  - intros st0. exists []. rewrite app_nil_r. by repeat split.
  - intros entry j md' st0 e _ _ Hsetup.
    exists [resultOf' entry j md']. split; [done|].
    unfold halts. destruct (partialEval v) eqn:Hp; cbn.
    + by split.
    + split; [done|]. exists [], (resultOf' entry j md').
      rewrite vrRule_resultOf.
      destruct (resultOf_setup_failure entry j md' e Hsetup) as (? & ? & _).
      by repeat split.
  - intros entry j md' st0 _ _ Hsetup.
    exists [resultOf' entry j md']. split; [done|]. split; [done|].
    intros _. apply Forall_singleton. unfold reachedExecution.
    by rewrite vrRule_resultOf.
  - intros st1 st2 st3 oe (new1 & Hr1 & _ & Hc1) (new2 & Hr2 & Hp2 & Hc2).
    exists (new1 ++ new2). split; [by rewrite Hr2, Hr1, app_assoc|].
    split; [done|]. destruct oe as [e|].
    + destruct Hc2 as (new' & r & -> & Hcl & Hr).
      exists (new1 ++ new'), r. split; [by rewrite app_assoc|].
      split; [|done]. apply Forall_app. split; [|done].
      apply Hc1. destruct (partialEval v); [by specialize (Hp2 eq_refl)|done].
    + intros Hp. apply Forall_app. split; [by apply Hc1|by apply Hc2].
  - intros st1 st2 oe HR. unfold halts.
    destruct (partialEval v) eqn:Hp; cbn; [|done].
    destruct HR as (new & Hr & _ & _). exists new.
    split; [exact Hr|]. split; [done|]. intros Hf. congruence.
Qed.

(** *** The seen set only grows, and covers what a run passed over *)

Lemma eval_seen_mono l i md st t :
  seenRule st t = true → seenRule (evalFrom' l i md st).1 t = true.
Proof.
  apply (eval_run (λ st st' _, seenRule st t = true → seenRule st' t = true)
           (λ _, True)); try done.
  - intros entry j md' st0 e _ _ _ Hst. unfold seenRule in *.
    rewrite seen_afterOwn, lookup_insert. by case_decide.
  - intros entry j md' st0 _ _ _ Hst. unfold seenRule in *.
    rewrite seen_afterOwn, lookup_insert. by case_decide.
  - auto.
Qed.

Lemma seenRule_afterOwn entry i md st :
  seenRule (afterOwn' entry i md st) (Rule entry) = true.
Proof. unfold seenRule. by rewrite seen_afterOwn, lookup_insert_eq. Qed.

Lemma evalEntry_marks_seen entry i md st :
  Enabled entry = true → seenRule (evalEntry' entry i md st).1 (Rule entry) = true.
Proof.
  intros Hen. rewrite evalEntry_unfold.
  destruct (skipped entry st) eqn:Hskip.
  { unfold skipped in Hskip. rewrite Hen in Hskip. exact Hskip. }
  destruct (setupError' (Rule entry)); cbn [fst]; [apply seenRule_afterOwn|].
  match goal with |- context [if ?c then _ else _] => destruct c end;
    cbn [fst]; [|apply seenRule_afterOwn].
  apply eval_seen_mono, seenRule_afterOwn.
Qed.

(** A run that returns no error has met every entry of its list. *)
Lemma evalFrom_covers l i md st st' :
  evalFrom' l i md st = (st', None) →
  ∀ e, e ∈ l → Enabled e = true → seenRule st' (Rule e) = true.
Proof.
  revert i st. induction l as [|e0 l IH]; intros i st Hrun e He Hen.
  { by apply elem_of_nil in He. }
  rewrite evalFrom_cons in Hrun.
  pose proof (evalEntry_marks_seen e0 i md st) as Hmark.
  destruct (evalEntry' e0 i md st) as [st1 [err|]] eqn:Hentry; [done|].
  cbn [fst] in Hmark.
  apply elem_of_cons in He as [->|He].
  - pose proof (eval_seen_mono l (i + 1) md st1 (Rule e0) (Hmark Hen)) as Hm.
    by rewrite Hrun in Hm.
  - by eapply IH.
Qed.

End EvalFacts.

(** ** [Validate] *)

Section ValidateFacts.
Context `{engine : CelEngine}.

Lemma Validate_eval v obj rules md env vars :
  buildEnv v obj = Some (inl (env, vars)) →
  Validate v obj rules md =
    Some (Some (results (eval v env vars rules md initialState).1),
          (eval v env vars rules md initialState).2).
Proof.
  intros Hb. unfold Validate. rewrite Hb. fold initialState.
  by destruct (eval v env vars rules md initialState).
Qed.

Lemma Validate_results_origin v obj rules md env vars rs err :
  buildEnv v obj = Some (inl (env, vars)) →
  Validate v obj rules md = Some (Some rs, err) →
  Forall (fromEnabledEntry env vars rules) rs.
Proof.
  intros Hb HV. rewrite (Validate_eval _ _ _ _ _ _ Hb) in HV.
  injection HV as <- _. apply eval_results_origin; [done|constructor].
Qed.

Lemma isTrue_spec out : isTrue out = true ↔ out = GoBool true.
Proof. destruct out as [[]| | | | | | | | | | |]; cbn; split; congruence. Qed.

(** C4: a result of a rule that reached execution has [Passed] true
    exactly when execution raised no error and produced the boolean
    [true]; a non-boolean value or an execution error gives [false]. *)
Theorem C4_passed_iff_true v obj rules md env vars rs err r ast prg :
  buildEnv v obj = Some (inl (env, vars)) →
  Validate v obj rules md = Some (Some rs, err) →
  r ∈ rs →
  Compile env (vrRule r) = inl ast → Program env ast = inl prg →
  (Passed r = true ↔ (Eval prg vars).2 = None ∧ (Eval prg vars).1 = GoBool true).
Proof.
  intros Hb HV Hr Hc Hp.
  pose proof (Validate_results_origin _ _ _ _ _ _ _ _ Hb HV) as Horigin.
  rewrite Forall_forall in Horigin.
  destruct (Horigin r Hr) as (entry & i & md' & _ & _ & ->).
  rewrite vrRule_resultOf in Hc.
  rewrite (resultOf_executed _ _ _ _ _ _ _ Hc Hp). cbn [Passed evalResult].
  rewrite andb_true_iff, bool_decide_eq_true, isTrue_spec. done.
Qed.

(** C10: when the environment cannot be built from the record,
    [Validate] returns the nil slice and that error, whatever the
    validator's mode and whatever the rules. *)
Theorem C10_environment_failure v obj rules md fields err :
  flattenStruct obj = Some fields →
  NewEnv (inferType <$> fields) = inr err →
  Validate v obj rules md = Some (None, Some err).
Proof.
  intros Hf Hn. unfold Validate, buildEnv. by rewrite Hf, Hn.
Qed.

Lemma Validate_runOutcome v obj rules md env vars rs err :
  buildEnv v obj = Some (inl (env, vars)) →
  Validate v obj rules md = Some (Some rs, err) →
  (partialEval v = true → err = None) ∧
  match err with
  | None => partialEval v = false → Forall (reachedExecution env) rs
  | Some e =>
      ∃ rs' r,
        rs = rs' ++ [r] ∧ Forall (reachedExecution env) rs' ∧
        setupError env (vrRule r) = Some e ∧ Error r = Some e ∧ Passed r = false
  end.
Proof.
  intros Hb HV. rewrite (Validate_eval _ _ _ _ _ _ Hb) in HV.
  injection HV as <- <-.
  destruct (eval_runOutcome v env vars rules 0 md initialState)
    as (new & Hres & Hp & Hout).
  change (evalFrom v env vars rules 0 md initialState)
    with (eval v env vars rules md initialState) in *.
  cbn [results initialState app] in Hres. rewrite Hres. by split.
Qed.

(** C3: a call that runs to completion, because partial evaluation is
    on or because every result reached execution, returns the nil
    error, a result for every enabled rule of the given list, and as
    many results as expressions were marked seen; an overall error is
    always the compile or build error of the last result, and is
    returned without partial evaluation only. *)
Theorem C3_run_to_completion v obj rules md env vars rs err :
  buildEnv v obj = Some (inl (env, vars)) →
  Validate v obj rules md = Some (Some rs, err) →
  (partialEval v = true ∨ Forall (reachedExecution env) rs → err = None) ∧
  (err = None → ∀ e, e ∈ rules → Enabled e = true → Rule e ∈ vrRule <$> rs) ∧
  (let final := (eval v env vars rules md initialState).1 in
   rs = results final ∧ length rs = size (seen final) ∧
   ∀ t, seenRule final t = true ↔ t ∈ vrRule <$> rs) ∧
  (∀ e, err = Some e →
     partialEval v = false ∧
     ∃ rs' r, rs = rs' ++ [r] ∧ setupError env (vrRule r) = Some e ∧
              Error r = Some e ∧ Passed r = false).
Proof.
  intros Hb HV.
  destruct (Validate_runOutcome _ _ _ _ _ _ _ _ Hb HV) as [Hpart Hout].
  pose proof HV as HV'. rewrite (Validate_eval _ _ _ _ _ _ Hb) in HV'.
  injection HV' as Hrs Herr.
  pose proof (eval_seenMatchesResults v env vars rules 0 md initialState
                seenMatchesResults_initial) as (Hnd & Hlen & Hseen).
  change (evalFrom v env vars rules 0 md initialState)
    with (eval v env vars rules md initialState) in *.
  assert (Hseen' : ∀ t, seenRule (eval v env vars rules md initialState).1 t = true
                        ↔ t ∈ vrRule <$> rs).
  { intros t. unfold seenRule. rewrite Hseen, Hrs.
    case_bool_decide; cbn; intuition congruence. }
  split; [|split; [|split]].
  - intros [Hp|Hclean]; [by apply Hpart|].
    destruct err as [e|]; [|done].
    destruct Hout as (rs' & r & -> & _ & Hr & _).
    apply Forall_app in Hclean as [_ Hclean].
    rewrite Forall_singleton in Hclean. unfold reachedExecution in Hclean.
    congruence.
  - intros -> e He Hen. apply Hseen'.
    eapply (evalFrom_covers v env vars rules 0 md initialState); [|done..].
    change (evalFrom v env vars rules 0 md initialState)
      with (eval v env vars rules md initialState).
    destruct (eval v env vars rules md initialState) as [st oe].
    cbn in *. by subst oe.
  - cbn zeta. rewrite <- Hrs in *. done.
  - intros e ->. destruct (partialEval v) eqn:Hp; [by specialize (Hpart eq_refl)|].
    split; [done|]. destruct Hout as (rs' & r & ? & _ & ? & ? & ?).
    by exists rs', r.
Qed.

(** C6: the results of one call carry pairwise different expression
    texts, every one the text of an enabled entry of the rule tree; an
    entry that is disabled or whose text is already in the seen set is
    passed over without any effect, at whatever level it is met; and
    the one seen set, which a run at any level extends, holds exactly
    the texts of the results so far. *)
Theorem C6_one_result_per_expression v obj rules md env vars rs err :
  buildEnv v obj = Some (inl (env, vars)) →
  Validate v obj rules md = Some (Some rs, err) →
  NoDup (vrRule <$> rs) ∧
  Forall (λ r, ∃ entry, entry ∈ allEntries rules ∧ Enabled entry = true ∧
                        Rule entry = vrRule r) rs ∧
  (∀ entry i md' st,
     Enabled entry = false ∨ seenRule st (Rule entry) = true →
     evalEntry v env vars entry i md' st = (st, None)) ∧
  (∀ l i md' st,
     seenMatchesResults st →
     seenMatchesResults (evalFrom v env vars l i md' st).1).
Proof.
  intros Hb HV.
  pose proof (Validate_results_origin _ _ _ _ _ _ _ _ Hb HV) as Horigin.
  rewrite (Validate_eval _ _ _ _ _ _ Hb) in HV. injection HV as Hrs _.
  pose proof (eval_seenMatchesResults v env vars rules 0 md initialState
                seenMatchesResults_initial) as (Hnd & _ & _).
  change (evalFrom v env vars rules 0 md initialState)
    with (eval v env vars rules md initialState) in *.
  rewrite Hrs in Hnd.
  split; [done|]. split; [|split].
  - eapply Forall_impl; [exact Horigin|].
    intros r (entry & i & md' & Hin & Hen & ->). exists entry.
    by rewrite vrRule_resultOf.
  - intros entry i md' st Hskip. rewrite evalEntry_unfold.
    unfold skipped. by destruct Hskip as [-> | ->]; rewrite ?orb_true_r.
  - intros l i md' st. apply eval_seenMatchesResults.
Qed.


(** The context of a result keeps the parent rule of the context the
    entry was evaluated in, and its chain path extends that context's. *)
Lemma resultOf_metadata env vars entry i md :
  ParentRule (Metadata (resultOf env vars entry i md)) = ParentRule md ∧
  RuleIndex (Metadata (resultOf env vars entry i md)) = i ∧
  ∃ marker, ChainPath (Metadata (resultOf env vars entry i md))
            = ChainPath md +:+ marker.
Proof.
  unfold resultOf. destruct (Compile env (Rule entry)) as [ast|e].
  - destruct (Program env ast) as [prg|e]; cbn.
    + do 2 (split; [done|]). exists "". by rewrite string_app_nil_r.
    + do 2 (split; [done|]). by exists " > programError".
  - cbn. do 2 (split; [done|]). by exists " > compileError".
Qed.

End ValidateFacts.

(** ** The rule resolver *)

Lemma pruneDisabled_Then r :
  Then (pruneDisabled r) = pruneDisabled <$> enabledOnly (Then r).
Proof.
  destruct r as [text en msg children]. cbn [pruneDisabled Then].
  induction children as [|c l IH]; [done|].
  unfold enabledOnly. rewrite filter_cons. fold (enabledOnly l).
  destruct (Enabled c) eqn:Hc.
  - rewrite decide_True by done. cbn [fmap list_fmap]. by rewrite IH.
  - rewrite decide_False by congruence. exact IH.
Qed.

(** The accumulating loop of [filterEnabledRules] builds the pruned copy. *)
Lemma filterEnabledRules_pruneDisabled r : filterEnabledRules r = pruneDisabled r.
Proof.
  induction r as [r IH] using RuleEntry_tree_ind.
  destruct r as [text en msg children]. cbn [filterEnabledRules pruneDisabled Then] in *.
  f_equal.
  enough (∀ acc,
    (fix loop (cs acc0 : list RuleEntry) {struct cs} : list RuleEntry :=
       match cs with
       | [] => acc0
       | child :: cs' =>
           if Enabled child then loop cs' (acc0 ++ [filterEnabledRules child])
           else loop cs' acc0
       end) children acc
    = acc ++ (fix go (l : list RuleEntry) : list RuleEntry :=
                match l with
                | [] => []
                | c :: l' => if Enabled c then pruneDisabled c :: go l' else go l'
                end) children) as H by apply (H []).
  induction IH as [|c l Hc _ IHl]; intros acc; [by rewrite app_nil_r|].
  destruct (Enabled c); [|apply IHl].
  rewrite IHl, Hc, <- app_assoc. done.
Qed.

Lemma pruneDisabled_all_enabled r e :
  e ∈ allEntries (Then (pruneDisabled r)) → Enabled e = true.
Proof.
  revert e. induction r as [r IH] using RuleEntry_tree_ind. intros e.
  rewrite pruneDisabled_Then. unfold enabledOnly.
  induction IH as [|c l Hc _ IHl]; [by intros ?%elem_of_nil|].
  rewrite filter_cons. case_decide as Hen; [|exact IHl].
  cbn [fmap list_fmap]. rewrite allEntries_cons.
  intros [->|[He|He]%elem_of_app]%elem_of_cons;
    [by destruct c|by apply Hc|by apply IHl].
Qed.

Lemma pruneDisabled_id r :
  (∀ e, e ∈ allEntries (Then r) → Enabled e = true) → pruneDisabled r = r.
Proof.
  induction r as [r IH] using RuleEntry_tree_ind. intros Hall.
  assert (HT : Then (pruneDisabled r) = Then r).
  { rewrite pruneDisabled_Then. unfold enabledOnly.
    induction IH as [|c l Hc _ IHl]; [done|].
    rewrite allEntries_cons in Hall.
    rewrite filter_cons, decide_True by (apply Hall; left).
    cbn [fmap list_fmap]. rewrite Hc, IHl; [done| |].
    - intros e He. apply Hall. right. apply elem_of_app. by right.
    - intros e He. apply Hall. right. apply elem_of_app. by left. }
  destruct r as [text en msg children]. cbn [Then] in HT.
  unfold pruneDisabled in *. cbn [Rule Enabled FailureMessage Then] in *.
  by f_equal.
Qed.

Lemma keepFirst_NoDup kept r :
  NoDup (Rule <$> kept) → NoDup (Rule <$> keepFirst kept r).
Proof.
  intros Hnd. unfold keepFirst. case_bool_decide as Hin; [done|].
  rewrite fmap_app. apply NoDup_app. split; [done|].
  split; [|apply NoDup_singleton].
  intros t Ht ?%list_elem_of_singleton. by subst.
Qed.

Lemma fold_keepFirst_NoDup l kept :
  NoDup (Rule <$> kept) → NoDup (Rule <$> fold_left keepFirst l kept).
Proof.
  revert kept. induction l as [|r l IH]; intros kept Hnd; [done|].
  cbn. by apply IH, keepFirst_NoDup.
Qed.

(** One bucket loop, against the fold: [merged] holds the pruned copies
    of the entries kept so far and [seen] holds their texts. *)
Lemma mergeBucket_keepFirst bucket kept seen :
  (∀ t, is_Some (seen !! t) ↔ t ∈ Rule <$> kept) →
  ∃ seen',
    mergeBucket bucket (filterEnabledRules <$> kept, seen) =
      (filterEnabledRules <$> fold_left keepFirst (enabledOnly bucket) kept, seen') ∧
    (∀ t, is_Some (seen' !! t)
          ↔ t ∈ Rule <$> fold_left keepFirst (enabledOnly bucket) kept).
Proof.
  revert kept seen. induction bucket as [|r bucket IH]; intros kept seen Hseen.
  { by exists seen. }
  cbn [mergeBucket]. unfold enabledOnly. rewrite filter_cons.
  fold (enabledOnly bucket).
  destruct (seen !! Rule r) as [b|] eqn:Hlook.
  - assert (Hin : Rule r ∈ Rule <$> kept) by (apply Hseen; by rewrite Hlook).
    case_decide as Hen; [|by apply IH].
    cbn [fold_left]. unfold keepFirst at 2 4.
    rewrite bool_decide_eq_true_2 by done. by apply IH.
  - assert (Hnin : Rule r ∉ Rule <$> kept).
    { intros Hin%Hseen. rewrite Hlook in Hin. by destruct Hin. }
    destruct (Enabled r) eqn:Hen.
    + rewrite decide_True by done. cbn [fold_left]. unfold keepFirst at 2 4.
      rewrite bool_decide_eq_false_2 by done.
      replace ((filterEnabledRules <$> kept) ++ [filterEnabledRules r])
        with (filterEnabledRules <$> (kept ++ [r])) by (by rewrite fmap_app).
      apply IH. intros t. rewrite fmap_app, elem_of_app, lookup_insert.
      cbn [fmap list_fmap]. rewrite list_elem_of_singleton, <- Hseen.
      case_decide as Heq; [|intuition congruence].
      subst t. split; [by right|by eexists].
    + rewrite decide_False by congruence. by apply IH.
Qed.

(** C5: [GetRulesFor] returns the merged rules the specification
    describes (empty for a type absent from the repository): the
    enabled entries of the Default bucket, then those of the operation
    bucket, first occurrence of each text kept, each passed through the
    recursive filter.  The filter keeps an entry's own fields and,
    filtered in turn, exactly its enabled children, so no disabled
    entry is left at any depth and a tree without disabled descendants
    is unchanged; the texts of the result are pairwise different. *)
Theorem C5_GetRulesFor_merges obj operation (rules : RuleSetMap) :
  GetRulesFor obj operation rules = mergedRules obj operation rules ∧
  (rules !! getStructName obj = None → GetRulesFor obj operation rules = []) ∧
  NoDup (Rule <$> GetRulesFor obj operation rules) ∧
  (∀ r e, r ∈ GetRulesFor obj operation rules → e ∈ subentries r → Enabled e = true) ∧
  (∀ r, Rule (filterEnabledRules r) = Rule r ∧
        Enabled (filterEnabledRules r) = Enabled r ∧
        FailureMessage (filterEnabledRules r) = FailureMessage r ∧
        Then (filterEnabledRules r) = filterEnabledRules <$> enabledOnly (Then r)) ∧
  (∀ r, (∀ e, e ∈ allEntries (Then r) → Enabled e = true) → filterEnabledRules r = r).
Proof.
  assert (Heq : GetRulesFor obj operation rules = mergedRules obj operation rules).
  { unfold GetRulesFor, mergedRules.
    destruct (rules !! getStructName obj) as [structRules|]; [|done].
    assert (H0 : ∀ t, is_Some ((∅ : gmap string bool) !! t) ↔ t ∈ Rule <$> ([] : list RuleEntry)).
    { intros t. rewrite lookup_empty. split; [by intros []|by intros ?%elem_of_nil]. }
    unfold dedupByRule. rewrite fold_left_app.
    assert (H1 : ∃ seen1,
      match structRules !! "Default" with
      | Some defaultRules => mergeBucket defaultRules ([], ∅)
      | None => ([], ∅)
      end = (filterEnabledRules <$>
               fold_left keepFirst (enabledOnly (default [] (structRules !! "Default"))) [],
             seen1) ∧
      ∀ t, is_Some (seen1 !! t)
           ↔ t ∈ Rule <$> fold_left keepFirst
                   (enabledOnly (default [] (structRules !! "Default"))) []).
    { destruct (structRules !! "Default") as [defaultRules|]; cbn [default].
      - apply (mergeBucket_keepFirst defaultRules [] ∅ H0).
      - by exists ∅. }
    destruct H1 as (seen1 & -> & Hseen1).
    destruct (structRules !! operation) as [opRules|]; cbn [default].
    - destruct (mergeBucket_keepFirst opRules _ _ Hseen1) as (seen2 & -> & _).
      cbn [fst]. apply list_fmap_ext. intros _ r _. apply filterEnabledRules_pruneDisabled.
    - cbn [fst enabledOnly fold_left]. apply list_fmap_ext.
      intros _ r _. apply filterEnabledRules_pruneDisabled. }
  split; [exact Heq|]. split; [|split; [|split; [|split]]].
  - intros Habs. unfold GetRulesFor. by rewrite Habs.
  - rewrite Heq. unfold mergedRules.
    destruct (rules !! getStructName obj) as [structRules|]; [|constructor].
    rewrite <- list_fmap_compose.
    rewrite (list_fmap_ext (Rule ∘ pruneDisabled) Rule) by (by intros _ [] _).
    apply fold_keepFirst_NoDup. constructor.
  - rewrite Heq. unfold mergedRules.
    destruct (rules !! getStructName obj) as [structRules|]; [|by intros r e ?%elem_of_nil].
    intros r e [r0 [-> Hr0]]%list_elem_of_fmap. rewrite subentries_eq.
    intros [->|He]%elem_of_cons; [|by eapply pruneDisabled_all_enabled].
    assert (Hen : ∀ l kept, Forall (λ x, Enabled x = true) kept →
                    Forall (λ x, Enabled x = true) (fold_left keepFirst (enabledOnly l) kept)).
    { clear. induction l as [|x l IH]; intros kept Hk; [done|].
      unfold enabledOnly. rewrite filter_cons. fold (enabledOnly l).
      case_decide; [|by apply IH]. cbn [fold_left]. apply IH.
      unfold keepFirst. case_bool_decide; [done|].
      apply Forall_app. split; [done|]. by apply Forall_singleton. }
    unfold dedupByRule in Hr0. rewrite fold_left_app in Hr0.
    pose proof (Hen (default [] (structRules !! operation)) _
                  (Hen (default [] (structRules !! "Default")) [] (Forall_nil_2 _))) as Hall.
    rewrite Forall_forall in Hall. by destruct r0; apply (Hall _ Hr0).
  - intros r. rewrite !filterEnabledRules_pruneDisabled, pruneDisabled_Then.
    destruct r; cbn. do 3 (split; [done|]).
    apply list_fmap_ext. intros _ x _. by rewrite filterEnabledRules_pruneDisabled.
  - intros r Hall. rewrite filterEnabledRules_pruneDisabled. by apply pruneDisabled_id.
Qed.

(** ** The metadata factory *)

Lemma map_size_1_singleton {A} (m : gmap string A) :
  size m = 1%nat → ∃ k x, m = {[k := x]}.
Proof.
  intros Hsize. unfold size, map_size in Hsize.
  rewrite map_fold_foldr in Hsize.
  destruct (map_to_list m) as [|[k x] [|[k' x'] l]] eqn:Hl; cbn in Hsize; try lia.
  exists k, x. rewrite <- (list_to_map_to_list m), Hl. cbn.
  by rewrite insert_empty.
Qed.

(** C8: the context has the empty chain path, rule index -1 and the
    empty parent rule; for a type in the repository its operation is the
    given one when that is not empty, the name of the only bucket when
    the given one is empty and there is exactly one bucket, and
    ["Default"] when it is empty and the number of buckets is not one;
    for a type absent from the repository it is ["Default"]. *)
Theorem C8_NewValidationMetadata obj operation (rules : RuleSetMap) :
  let md := NewValidationMetadata obj operation rules in
  StructName md = getStructName obj ∧
  ChainPath md = "" ∧ RuleIndex md = -1 ∧ ParentRule md = "" ∧
  (∀ structRules, rules !! getStructName obj = Some structRules →
     operation ≠ "" → Operation md = operation) ∧
  (∀ structRules, rules !! getStructName obj = Some structRules →
     operation = "" → size structRules = 1%nat →
     ∃ k rs, structRules = {[k := rs]} ∧ Operation md = k) ∧
  (∀ structRules, rules !! getStructName obj = Some structRules →
     operation = "" → size structRules ≠ 1%nat → Operation md = "Default") ∧
  (rules !! getStructName obj = None → Operation md = "Default").
Proof.
  intros md. do 4 (split; [done|]).
  unfold md, NewValidationMetadata. cbn [Operation].
  split; [|split; [|split]].
  - intros structRules -> Hop.
    apply String.eqb_neq in Hop. by rewrite Hop.
  - intros structRules -> -> Hsize.
    destruct (map_size_1_singleton structRules Hsize) as (k & rs & ->).
    exists k, rs. split; [done|].
    rewrite map_size_singleton. cbn. by rewrite map_fold_singleton.
  - intros structRules -> -> Hsize. cbn.
    destruct (Z.eqb_spec (Z.of_nat (size structRules)) 1) as [Heq|]; [lia|done].
  - by intros ->.
Qed.

(** ** Flattening *)

Lemma dotFree_not_dotted a b y :
  dotFree a = true → a ≠ b +:+ "." +:+ y.
Proof.
  revert a. induction b as [|c b IH]; intros a Ha Heq.
  - subst a. vm_compute in Ha. discriminate.
  - subst a. change (dotFree (String c (b +:+ "." +:+ y)) = true) in Ha.
    cbn [dotFree] in Ha. apply andb_true_iff in Ha as [_ Ha]. by eapply IH.
Qed.

Lemma dotFree_split a b x y :
  dotFree a = true → dotFree b = true →
  a +:+ "." +:+ x = b +:+ "." +:+ y → a = b ∧ x = y.
Proof.
  revert b. induction a as [|c a IH]; intros [|d b] Ha Hb Heq.
  - change (String "."%char x = String "."%char y) in Heq. by injection Heq as ->.
  - change (String "."%char x = String d (b +:+ "." +:+ y)) in Heq.
    injection Heq as <- _. vm_compute in Hb. discriminate.
  - change (String c (a +:+ "." +:+ x) = String "."%char y) in Heq.
    injection Heq as -> _. vm_compute in Ha. discriminate.
  - change (String c (a +:+ "." +:+ x) = String d (b +:+ "." +:+ y)) in Heq.
    injection Heq as -> Heq. cbn [dotFree] in Ha, Hb.
    apply andb_true_iff in Ha as [_ Ha]. apply andb_true_iff in Hb as [_ Hb].
    destruct (IH b Ha Hb Heq) as [-> ->]. done.
Qed.

Lemma keyOf_disjoint n1 n2 key :
  dotFree n1 = true → dotFree n2 = true → n1 ≠ n2 →
  keyOf n1 key → ¬ keyOf n2 key.
Proof.
  intros H1 H2 Hne [->|[k1 ->]] [Heq|[k2 Heq]].
  - done.
  - exact (dotFree_not_dotted _ _ _ H1 Heq).
  - exact (dotFree_not_dotted _ _ _ H2 (eq_sym Heq)).
  - by destruct (dotFree_split _ _ _ _ H1 H2 Heq).
Qed.

Lemma flattenStruct_struct tn fs :
  flattenStruct (GoStruct tn fs) = flattenFields fs ∅.
Proof. reflexivity. Qed.

Lemma flattenStruct_ptr_struct tn fs :
  flattenStruct (GoPtr (GoStruct tn fs)) = flattenFields fs ∅.
Proof. reflexivity. Qed.

(** Induction on Go values that descends into struct fields. *)
Lemma GoValue_fields_ind (P : GoValue → Prop) :
  (∀ tn fs, Forall (λ f, P f.2) fs → P (GoStruct tn fs)) →
  (∀ x, kindOf x ≠ KStruct → P x) →
  ∀ x, P x.
Proof.
  intros Hstruct Hother. fix IH 1.
  intros [b|n|n|s|bits|bits|entries|tn fs|target|en|tn repr|n d];
    try (apply Hother; discriminate).
  apply Hstruct. induction fs as [|[[n c] x] fs IHfs]; constructor.
  - apply IH.
  - exact IHfs.
Qed.

(** Flattening a struct value never panics. *)
Lemma flattenStruct_total x :
  kindOf x = KStruct → is_Some (flattenStruct x).
Proof.
  induction x as [tn fs IH|x Hx] using GoValue_fields_ind; [intros _|done].
  rewrite flattenStruct_struct. generalize (∅ : gmap string GoValue).
  induction IH as [|[[n c] x] fs Hx _ IHfs]; intros result; [by eexists|].
  cbn [flattenFields]. destruct c; cbn [negb]; [|apply IHfs].
  destruct x; try apply IHfs.
  cbn [snd] in Hx. destruct (Hx eq_refl) as [nested ->]. apply IHfs.
Qed.

(** What merging a nested map does to the lookups. *)
Lemma mergeNested_lookup name nested result :
  (∀ k, mergeNested name nested result !! (name +:+ "." +:+ k) =
          match nested !! k with
          | Some x => Some x
          | None => result !! (name +:+ "." +:+ k)
          end) ∧
  (∀ key, (∀ k, key ≠ name +:+ "." +:+ k) →
          mergeNested name nested result !! key = result !! key).
Proof.
  unfold mergeNested.
  apply (map_fold_weak_ind
           (λ r (m : gmap string GoValue),
              (∀ k, r !! (name +:+ "." +:+ k) =
                      match m !! k with
                      | Some x => Some x
                      | None => result !! (name +:+ "." +:+ k)
                      end) ∧
              (∀ key, (∀ k, key ≠ name +:+ "." +:+ k) → r !! key = result !! key))).
  - split; [|done]. intros k. by rewrite lookup_empty.
  - intros i x m r Hi [Hin Hout]. split.
    + intros k. rewrite !lookup_insert. destruct (decide (i = k)) as [->|Hne].
      * by rewrite decide_True.
      * rewrite decide_False; [apply Hin|].
        intros Heq. apply Hne.
        do 2 apply (inj (String.app _)) in Heq. done.
    + intros key Hkey. rewrite lookup_insert_ne by (intros Heq; by eapply Hkey).
      by apply Hout.
Qed.

Lemma flattenFields_cons f fs result m :
  flattenFields (f :: fs) result = Some m →
  ∃ r', flattenFields [f] result = Some r' ∧ flattenFields fs r' = Some m.
Proof.
  destruct f as [[n c] x]. cbn [flattenFields].
  destruct c; cbn [negb]; [|by eauto].
  destruct x; eauto.
  match goal with |- context [flattenStruct ?s] => destruct (flattenStruct s) end;
    [by eauto|done].
Qed.

Lemma flattenFields_single_other n x result :
  kindOf x ≠ KStruct →
  flattenFields [(n, true, x)] result = Some (<[n := interfaceOf x]> result).
Proof. by destruct x. Qed.

Lemma flattenFields_single_struct n tn fs result :
  flattenFields [(n, true, GoStruct tn fs)] result =
    (λ nested, mergeNested n nested result) <$> flattenStruct (GoStruct tn fs).
Proof.
  cbn [flattenFields negb].
  by destruct (flattenStruct (GoStruct tn fs)).
Qed.

(** The loop leaves alone every key that no interfaceable field owns. *)
Lemma flattenFields_other fs result m key :
  flattenFields fs result = Some m →
  (∀ f, f ∈ fs → f.1.2 = true → ¬ keyOf (fieldName f) key) →
  m !! key = result !! key.
Proof.
  revert result. induction fs as [|[[n c] x] fs IH]; intros result Hrun Hkeys.
  { by injection Hrun as <-. }
  apply flattenFields_cons in Hrun as (r' & Hhead & Htail).
  rewrite (IH r' Htail) by (intros f Hf; apply Hkeys; by right).
  destruct c; [|by injection Hhead as <-].
  assert (Hk : ¬ keyOf n key) by (apply (Hkeys (n, true, x)); [left|done]).
  destruct (decide (kindOf x = KStruct)) as [Hs|Hs].
  - destruct x; try discriminate. rewrite flattenFields_single_struct in Hhead.
    destruct (flattenStruct (GoStruct name fields)) as [nested|]; [|done].
    injection Hhead as <-. apply mergeNested_lookup.
    intros k ->. apply Hk. right. by exists k.
  - rewrite (flattenFields_single_other _ _ _ Hs) in Hhead. injection Hhead as <-.
    apply lookup_insert_ne. intros ->. apply Hk. by left.
Qed.

Lemma wellFormedFields_cons f fs :
  wellFormedFields (f :: fs) →
  dotFree (fieldName f) = true ∧ wellFormedFields fs ∧
  ∀ g, g ∈ fs → fieldName g ≠ fieldName f ∧ dotFree (fieldName g) = true.
Proof.
  intros [Hnd Hdf]. cbn [fmap list_fmap] in Hnd.
  apply NoDup_cons in Hnd as [Hnin Hnd]. apply Forall_cons in Hdf as [Hf Hdf].
  split; [done|]. split; [done|]. intros g Hg. split.
  - intros Heq. apply Hnin. rewrite <- Heq. by apply list_elem_of_fmap_2.
  - rewrite Forall_forall in Hdf. by apply Hdf.
Qed.

(** What the loop stores for an interfaceable field. *)
Lemma flattenFields_field fs result m name value :
  wellFormedFields fs → flattenFields fs result = Some m →
  (name, true, value) ∈ fs →
  (kindOf value = KStruct →
     ∃ nested, flattenStruct value = Some nested ∧
       m !! name = result !! name ∧
       ∀ k, m !! (name +:+ "." +:+ k) =
              match nested !! k with
              | Some x => Some x
              | None => result !! (name +:+ "." +:+ k)
              end) ∧
  (kindOf value ≠ KStruct →
     m !! name = Some (interfaceOf value) ∧
     ∀ k, m !! (name +:+ "." +:+ k) = result !! (name +:+ "." +:+ k)).
Proof.
  revert result. induction fs as [|f fs IH]; intros result Hwf Hrun Hin.
  { by apply elem_of_nil in Hin. }
  apply wellFormedFields_cons in Hwf as (Hdf & Hwf & Hrest).
  apply flattenFields_cons in Hrun as (r' & Hhead & Htail).
  apply elem_of_cons in Hin as [<-|Hin].
  - cbn [fieldName fst] in *.
    assert (Hkeep : ∀ key, keyOf name key → m !! key = r' !! key).
    { intros key Hkey. apply (flattenFields_other fs r' m key Htail).
      intros g Hg _. destruct (Hrest g Hg) as [Hne Hdg].
      intros Hkey'. by apply (keyOf_disjoint _ _ key Hdf Hdg (not_eq_sym Hne)). }
    split; intros Hkind.
    + destruct value; try discriminate.
      rewrite flattenFields_single_struct in Hhead.
      destruct (flattenStruct (GoStruct name0 fields)) as [nested|]; [|done].
      injection Hhead as <-. exists nested. split; [done|]. split.
      * rewrite Hkeep by by left. apply mergeNested_lookup.
        intros k. by apply dotFree_not_dotted.
      * intros k. rewrite Hkeep by (right; by exists k). apply mergeNested_lookup.
    + rewrite (flattenFields_single_other _ _ _ Hkind) in Hhead.
      injection Hhead as <-. split.
      * rewrite Hkeep by by left. apply lookup_insert_eq.
      * intros k. rewrite Hkeep by (right; by exists k).
        apply lookup_insert_ne. by apply dotFree_not_dotted.
  - destruct (Hrest _ Hin) as [Hne Hdn]. cbn [fieldName fst] in Hne, Hdn.
    assert (Hsame : ∀ key, keyOf name key → r' !! key = result !! key).
    { intros key Hkey. apply (flattenFields_other [f] result r' key Hhead).
      intros g ->%list_elem_of_singleton _.
      intros Hkey'. by apply (keyOf_disjoint _ _ key Hdn Hdf Hne). }
    destruct (IH r' Hwf Htail Hin) as [Hs Ho]. split; intros Hkind.
    + destruct (Hs Hkind) as (nested & Hn & Hname & Hk). exists nested.
      split; [done|]. split.
      * rewrite Hname. apply Hsame. by left.
      * intros k. rewrite Hk, Hsame; [done|]. right. by exists k.
    + destruct (Ho Hkind) as [Hname Hk]. split; [done|].
      intros k. rewrite Hk. apply Hsame. right. by exists k.
Qed.

(** C9 (as amended): flattening a struct with well-formed fields, given
    directly or behind one pointer, does not panic, and for each field:
    a field that cannot be interfaced leaves no key; a field of struct
    kind is not stored under its own name and its flattened entries
    appear under [name + "." + key]; a field of any other kind, a
    pointer to a struct and an interface that holds a struct included,
    is stored whole (as [value.Interface()] gives it) under its name
    with no dotted key below it. *)
Theorem C9_flattenStruct_fields tn fs :
  wellFormedFields fs →
  ∃ m,
    flattenStruct (GoStruct tn fs) = Some m ∧
    flattenStruct (GoPtr (GoStruct tn fs)) = Some m ∧
    ∀ name canInterface value, (name, canInterface, value) ∈ fs →
      (canInterface = false → ∀ key, keyOf name key → m !! key = None) ∧
      (canInterface = true → kindOf value = KStruct →
         ∃ nested, flattenStruct value = Some nested ∧ m !! name = None ∧
                   ∀ k, m !! (name +:+ "." +:+ k) = nested !! k) ∧
      (canInterface = true → kindOf value ≠ KStruct →
         m !! name = Some (interfaceOf value) ∧
         ∀ k, m !! (name +:+ "." +:+ k) = None).
Proof.
  intros Hwf.
  destruct (flattenStruct_total (GoStruct tn fs) eq_refl) as [m Hm].
  exists m. split; [done|]. split; [by rewrite flattenStruct_ptr_struct|].
  rewrite flattenStruct_struct in Hm.
  intros name c value Hin. split; [|split].
  - intros -> key Hkey.
    rewrite (flattenFields_other fs ∅ m key Hm); [apply lookup_empty|].
    intros g Hg Hexp Hkey'.
    destruct Hwf as [Hnd Hdf]. rewrite Forall_forall in Hdf.
    destruct (decide (fieldName g = name)) as [Heq|Hne].
    + assert (g = (name, false, value)); [|by subst g].
      apply list_elem_of_lookup in Hg as [i Hi], Hin as [j Hj].
      assert (i = j); [|congruence].
      eapply NoDup_lookup; [exact Hnd| |]; rewrite list_lookup_fmap.
      * by rewrite Hi.
      * rewrite Hj. cbn. by rewrite Heq.
    + by apply (keyOf_disjoint _ _ key (Hdf _ Hin) (Hdf _ Hg) (not_eq_sym Hne)).
  - intros -> Hkind.
    destruct (flattenFields_field fs ∅ m name value Hwf Hm Hin) as [Hs _].
    destruct (Hs Hkind) as (nested & Hn & Hname & Hk). exists nested.
    split; [done|]. split; [by rewrite Hname, lookup_empty|].
    intros k. rewrite Hk, lookup_empty. by destruct (nested !! k).
  - intros -> Hkind.
    destruct (flattenFields_field fs ∅ m name value Hwf Hm Hin) as [_ Ho].
    destruct (Ho Hkind) as [Hname Hk]. split; [done|].
    intros k. by rewrite Hk, lookup_empty.
Qed.

(** * Concrete runs *)

(** Without partial evaluation the run stops at the undeclared field;
    with it the run goes on to the last rule. *)
Lemma Toy_strict_results :
  Toy.resultsOf Toy.strictRun =
    [Toy.activeResult; Toy.verifiedResult; Toy.divisionResult; Toy.undeclaredResult].
Proof. vm_compute. reflexivity. Qed.

Lemma Toy_lenient_results :
  Toy.resultsOf Toy.lenientRun =
    [Toy.activeResult; Toy.verifiedResult; Toy.divisionResult; Toy.undeclaredResult;
     Toy.ageResult].
Proof. vm_compute. reflexivity. Qed.


(** The statements about [Validate], on these runs. *)

Lemma C3_witness :
  Toy.errorOf Toy.lenientRun = None ∧
  "Age" ∈ vrRule <$> Toy.resultsOf Toy.lenientRun.
Proof.
  destruct (C3_run_to_completion (engine := Toy.engine)
              Toy.lenient Toy.sample Toy.rules1 Toy.md0 Toy.decls Toy.fields
              (Toy.resultsOf Toy.lenientRun) (Toy.errorOf Toy.lenientRun))
    as (Hnil & Hcover & _ & _).
  - vm_compute. reflexivity.
  - vm_compute. reflexivity.
  - assert (Herr : Toy.errorOf Toy.lenientRun = None).
    { apply Hnil. left. vm_compute. reflexivity. }
    split; [exact Herr|].
    apply (Hcover Herr (Toy.rule "Age" [])).
    + unfold Toy.rules1. do 4 right. left.
    + vm_compute. reflexivity.
Defined.

Lemma C4_witness :
  (Passed Toy.activeResult = true ↔
     (Toy.run "Active" Toy.fields).2 = None ∧
     (Toy.run "Active" Toy.fields).1 = GoBool true) ∧
  (Passed Toy.ageResult = true ↔
     (Toy.run "Age" Toy.fields).2 = None ∧
     (Toy.run "Age" Toy.fields).1 = GoBool true).
Proof.
  split.
  - apply (C4_passed_iff_true (engine := Toy.engine)
             Toy.lenient Toy.sample Toy.rules1 Toy.md0 Toy.decls Toy.fields
             (Toy.resultsOf Toy.lenientRun) (Toy.errorOf Toy.lenientRun)
             Toy.activeResult "Active" "Active").
    + vm_compute. reflexivity.
    + vm_compute. reflexivity.
    + rewrite Toy_lenient_results. left.
    + vm_compute. reflexivity.
    + vm_compute. reflexivity.
  - apply (C4_passed_iff_true (engine := Toy.engine)
             Toy.lenient Toy.sample Toy.rules1 Toy.md0 Toy.decls Toy.fields
             (Toy.resultsOf Toy.lenientRun) (Toy.errorOf Toy.lenientRun)
             Toy.ageResult "Age" "Age").
    + vm_compute. reflexivity.
    + vm_compute. reflexivity.
    + rewrite Toy_lenient_results. do 4 right. left.
    + vm_compute. reflexivity.
    + vm_compute. reflexivity.
Defined.

Lemma C6_witness :
  NoDup (vrRule <$> Toy.resultsOf Toy.lenientRun) ∧
  evalEntry (engine := Toy.engine) Toy.lenient Toy.decls Toy.fields
    (Toy.disabled "Age" []) 1 Toy.md0 initialState = (initialState, None).
Proof.
  destruct (C6_one_result_per_expression (engine := Toy.engine)
              Toy.lenient Toy.sample Toy.rules1 Toy.md0 Toy.decls Toy.fields
              (Toy.resultsOf Toy.lenientRun) (Toy.errorOf Toy.lenientRun))
    as (Hnd & _ & Hskip & _).
  - vm_compute. reflexivity.
  - vm_compute. reflexivity.
  - split; [exact Hnd|]. apply Hskip. left. reflexivity.
Defined.

Lemma C10_witness :
  @Validate Toy.engine Toy.strict Toy.unbuildable Toy.rules1 Toy.md0
    = Some (None, Some (mkError "reserved identifier")) ∧
  @Validate Toy.engine Toy.lenient Toy.unbuildable Toy.rules1 Toy.md0
    = Some (None, Some (mkError "reserved identifier")).
Proof.
  split.
  - apply (C10_environment_failure (engine := Toy.engine) Toy.strict Toy.unbuildable
             Toy.rules1 Toy.md0 {["Reserved" := GoInt 1]}).
    + vm_compute. reflexivity.
    + vm_compute. reflexivity.
  - apply (C10_environment_failure (engine := Toy.engine) Toy.lenient Toy.unbuildable
             Toy.rules1 Toy.md0 {["Reserved" := GoInt 1]}).
    + vm_compute. reflexivity.
    + vm_compute. reflexivity.
Defined.

(** The statements about resolution, metadata and flattening, on the
    sample record and repository. *)

Lemma C5_witness :
  GetRulesFor Toy.sample "Create" Toy.repo =
    [Toy.rule "Email" [Toy.rule "A" []]; Toy.rule "IsActive" []] ∧
  GetRulesFor (GoInt 3) "Create" Toy.repo = [].
Proof.
  destruct (C5_GetRulesFor_merges Toy.sample "Create" Toy.repo) as (Heq & _).
  destruct (C5_GetRulesFor_merges (GoInt 3) "Create" Toy.repo) as (_ & Habsent & _).
  split.
  - rewrite Heq. vm_compute. reflexivity.
  - apply Habsent. vm_compute. reflexivity.
Defined.

Lemma C8_witness :
  Operation (NewValidationMetadata Toy.sample "Update" Toy.repo) = "Update" ∧
  Operation (NewValidationMetadata Toy.sample "" Toy.repo) = "Default" ∧
  Operation (NewValidationMetadata (GoInt 3) "Update" Toy.repo) = "Default".
Proof.
  destruct (C8_NewValidationMetadata Toy.sample "Update" Toy.repo)
    as (_ & _ & _ & _ & Hgiven & _).
  destruct (C8_NewValidationMetadata Toy.sample "" Toy.repo)
    as (_ & _ & _ & _ & _ & _ & Hmany & _).
  destruct (C8_NewValidationMetadata (GoInt 3) "Update" Toy.repo)
    as (_ & _ & _ & _ & _ & _ & _ & Habsent).
  split; [|split].
  - apply (Hgiven (default ∅ (Toy.repo !! "Sample"))).
    + vm_compute. reflexivity.
    + discriminate.
  - apply (Hmany (default ∅ (Toy.repo !! "Sample"))).
    + vm_compute. reflexivity.
    + reflexivity.
    + vm_compute. discriminate.
  - apply Habsent. vm_compute. reflexivity.
Defined.

Lemma Toy_holder_wellFormed : wellFormedFields Toy.holderFields.
Proof.
  split.
  - apply (bool_decide_unpack _). vm_compute. exact I.
  - repeat constructor.
Qed.

(** C9 as stated fails: a field that holds a pointer to a struct is
    stored whole under its name, where the same struct held by value is
    flattened into dotted keys. *)
Lemma C9_counterexample :
  ∃ m plain,
    flattenStruct Toy.sample = Some m ∧
    flattenStruct Toy.samplePlainOwner = Some plain ∧
    plain !! "Owner.Known" = Some (GoBool true) ∧ plain !! "Owner" = None ∧
    m !! "Owner.Known" = None ∧
    m !! "Owner" = Some (GoPtr (GoStruct "Owner" [("Known", true, GoBool true)])) ∧
    m ≠ plain.
Proof.
  exists (default ∅ (flattenStruct Toy.sample)),
         (default ∅ (flattenStruct Toy.samplePlainOwner)).
  do 6 (split; [vm_compute; reflexivity|]).
  intros Heq. apply (f_equal (λ x : gmap string GoValue, x !! "Owner")) in Heq.
  vm_compute in Heq. discriminate Heq.
Qed.

Lemma C9_witness :
  ∃ m,
    flattenStruct Toy.holder = Some m ∧
    flattenStruct (GoPtr Toy.holder) = Some m ∧
    m !! "hidden" = None ∧
    m !! "Inner.X" = Some (GoInt 1) ∧ m !! "Inner" = None ∧
    m !! "Ref" = Some (GoPtr Toy.inner) ∧ m !! "Ref.X" = None ∧
    m !! "Payload" = Some Toy.inner ∧ m !! "Payload.X" = None.
Proof.
  destruct (C9_flattenStruct_fields "Holder" _ Toy_holder_wellFormed)
    as (m & Hm & Hptr & Hfields).
  exists m. split; [exact Hm|]. split; [exact Hptr|].
  destruct (Hfields "hidden" false (GoString "x")) as (Hhidden & _ & _).
  { do 3 right. left. }
  destruct (Hfields "Inner" true Toy.inner) as (_ & Hinner & _).
  { right. left. }
  destruct (Hfields "Ref" true (GoPtr Toy.inner)) as (_ & _ & Href).
  { do 2 right. left. }
  destruct (Hfields "Payload" true (GoInterface "" Toy.inner)) as (_ & _ & Hpayload).
  { left. }
  split; [apply (Hhidden eq_refl); by left|].
  destruct (Hinner eq_refl eq_refl) as (nested & Hnested & Hplain & Hkeys).
  destruct (Href eq_refl) as [Hrname Hrdotted]; [discriminate|].
  destruct (Hpayload eq_refl) as [Hpname Hpdotted]; [discriminate|].
  split.
  { change "Inner.X" with ("Inner" +:+ "." +:+ "X").
    rewrite Hkeys. vm_compute in Hnested. injection Hnested as <-.
    vm_compute. reflexivity. }
  split; [exact Hplain|]. split; [exact Hrname|].
  split; [apply (Hrdotted "X")|]. split; [exact Hpname|apply (Hpdotted "X")].
Defined.

(** * Further properties *)

(** ** Chain paths *)

Lemma string_app_assoc (a b c : string) : (a +:+ b) +:+ c = a +:+ (b +:+ c).
Proof.
  induction a as [|x a IH]; [done|].
  change (String x ((a +:+ b) +:+ c) = String x (a +:+ (b +:+ c))). by rewrite IH.
Qed.

Lemma string_app_nonempty (a b : string) : a ≠ "" → a +:+ b ≠ "".
Proof. by destruct a. Qed.

(** X1: extending a chain path by a non-empty segment gives a non-empty
    path, and extending twice is extending once by the joined segments:
    the breadcrumb does not depend on how the descent is grouped. *)
Theorem X1_extendChainPath_assoc (a b c : string) :
  b ≠ "" →
  extendChainPath a b ≠ "" ∧
  extendChainPath (extendChainPath a b) c
    = extendChainPath a (extendChainPath b c).
Proof.
  intros Hb. unfold extendChainPath.
  destruct (String.eqb_spec a "") as [->|Ha].
  - split; [done|]. destruct (String.eqb_spec b "") as [|_]; [done|].
    by destruct (String.eqb_spec (b +:+ " > " +:+ c) "").
  - split; [by apply string_app_nonempty|].
    destruct (String.eqb_spec (a +:+ " > " +:+ b) "") as [Hemp|_].
    { by apply string_app_nonempty in Hemp. }
    destruct (String.eqb_spec b "") as [|_]; [done|].
    by rewrite !string_app_assoc.
Qed.

Lemma X1_witness :
  extendChainPath (extendChainPath "then" "then") "then"
    = extendChainPath "then" (extendChainPath "then" "then").
Proof.
  apply (X1_extendChainPath_assoc "then" "then" "then"). discriminate.
Defined.

(** ** Flattening: when it panics, what it stores *)

Lemma flattenStruct_accepts obj :
  is_Some (flattenStruct obj) ↔ isStructOrPtr obj = true.
Proof.
  split.
  - intros [m Hm]. destruct obj as [| | | | | | | |target| | |]; try done.
    by destruct target.
  - destruct obj as [| | | | | | |tn fs|target| | |]; try done.
    + intros _. by apply flattenStruct_total.
    + destruct target as [| | | | | | |tn fs| | | |]; try done.
      intros _. rewrite flattenStruct_ptr_struct, <- (flattenStruct_struct tn).
      by apply (flattenStruct_total (GoStruct tn fs)).
Qed.

(** X2: flattening succeeds exactly on a struct or a pointer to a struct
    and panics on everything else (a scalar, a map, a nil pointer, a
    pointer to a pointer); [Validate] panics on exactly those records,
    whatever the engine, the mode and the rules. *)
Theorem X2_flatten_panics_off_structs `{engine : CelEngine} v obj rules md :
  (flattenStruct obj = None ↔ isStructOrPtr obj = false) ∧
  (Validate v obj rules md = None ↔ isStructOrPtr obj = false).
Proof.
  pose proof (flattenStruct_accepts obj) as Hacc.
  assert (Hnone : flattenStruct obj = None ↔ isStructOrPtr obj = false).
  { destruct (flattenStruct obj) as [m|], (isStructOrPtr obj); split; try done.
    - intros _. pose proof (proj1 Hacc (ex_intro _ m eq_refl)) as Hf.
      discriminate Hf.
    - intros _. destruct (proj2 Hacc eq_refl) as [m Hm]. discriminate Hm. }
  split; [exact Hnone|]. rewrite <- Hnone.
  unfold Validate, buildEnv. destruct (flattenStruct obj) as [fields|]; [|done].
  destruct (NewEnv (inferType <$> fields)) as [env|err]; [|done].
  by destruct (eval v env fields rules md _).
Qed.

(** What the merge of a nested map can hold. *)
Lemma mergeNested_values name nested result key x :
  mergeNested name nested result !! key = Some x →
  (∃ k, nested !! k = Some x ∧ key = name +:+ "." +:+ k) ∨ result !! key = Some x.
Proof.
  unfold mergeNested. revert key x.
  apply (map_fold_weak_ind
           (λ r (m : gmap string GoValue),
              ∀ key x, r !! key = Some x →
                (∃ k, m !! k = Some x ∧ key = name +:+ "." +:+ k)
                ∨ result !! key = Some x)).
  - intros key x Hx. by right.
  - intros i y m r Hi IH key x. rewrite lookup_insert.
    case_decide as Heq.
    + intros [= ->]. left. exists i. by rewrite lookup_insert_eq.
    + intros [(k & Hk & ->)|Hr]%IH; [|by right].
      left. exists k. split; [|done].
      rewrite lookup_insert_ne; [done|]. by intros ->.
Qed.

Lemma flattenFields_keys fs result m key :
  flattenFields fs result = Some m → is_Some (m !! key) →
  is_Some (result !! key) ∨
  ∃ name value,
    (name, true, value) ∈ fs ∧
    ((kindOf value ≠ KStruct ∧ key = name) ∨
     (kindOf value = KStruct ∧
      ∃ k nested, flattenStruct value = Some nested ∧ is_Some (nested !! k) ∧
                  key = name +:+ "." +:+ k)).
Proof.
  revert result. induction fs as [|[[n c] y] fs IH]; intros result Hrun Hkey.
  { injection Hrun as <-. by left. }
  apply flattenFields_cons in Hrun as (r' & Hhead & Htail).
  destruct (IH r' Htail Hkey) as [Hr'|(name & value & Hin & Hown)].
  2:{ right. exists name, value. split; [by right|done]. }
  destruct c; [|injection Hhead as <-; by left].
  destruct (decide (kindOf y = KStruct)) as [Hs|Hs].
  - destruct y; try discriminate. rewrite flattenFields_single_struct in Hhead.
    destruct (flattenStruct (GoStruct name fields)) as [nested|] eqn:Hn; [|done].
    injection Hhead as <-. destruct Hr' as [x Hx].
    apply mergeNested_values in Hx as [(k & Hk & ->)|Hx]; [|left; by eexists].
    right. exists n, (GoStruct name fields). split; [left|]. right.
    split; [done|]. exists k, nested. by rewrite Hk.
  - rewrite (flattenFields_single_other _ _ _ Hs) in Hhead. injection Hhead as <-.
    rewrite lookup_insert in Hr'. case_decide as Heq; [|by left].
    right. exists n, y. split; [left|]. left. by subst.
Qed.

(** X4: the flattened map of a struct holds no other keys than these:
    the name of an interfaceable field that is not a struct, and
    [name + "." + k] for an interfaceable struct-valued field and a key
    [k] of that field's own flattened map. *)
Theorem X4_flattened_keys_owned tn fs m key :
  flattenStruct (GoStruct tn fs) = Some m → is_Some (m !! key) →
  ∃ name value,
    (name, true, value) ∈ fs ∧
    ((kindOf value ≠ KStruct ∧ key = name) ∨
     (kindOf value = KStruct ∧
      ∃ k nested, flattenStruct value = Some nested ∧ is_Some (nested !! k) ∧
                  key = name +:+ "." +:+ k)).
Proof.
  rewrite flattenStruct_struct. intros Hm Hkey.
  destruct (flattenFields_keys fs ∅ m key Hm Hkey) as [He|?]; [|done].
  rewrite lookup_empty in He. by destruct He.
Qed.

Lemma X4_witness :
  ∃ name value,
    (name, true, value) ∈
      [("Count", true, GoInt 2); ("hidden", false, GoString "x");
       ("Home", true, GoStruct "Address" [("City", true, GoString "LA")])] ∧
    ((kindOf value ≠ KStruct ∧ "Home.City" = name) ∨
     (kindOf value = KStruct ∧
      ∃ k nested, flattenStruct value = Some nested ∧ is_Some (nested !! k) ∧
                  "Home.City" = name +:+ "." +:+ k)).
Proof.
  apply (X4_flattened_keys_owned "User" _
           (default ∅ (flattenStruct
              (GoStruct "User"
                 [("Count", true, GoInt 2); ("hidden", false, GoString "x");
                  ("Home", true, GoStruct "Address" [("City", true, GoString "LA")])])))
           "Home.City").
  - vm_compute. reflexivity.
  - vm_compute. by eexists.
Defined.

(** ** A record and a pointer to it *)

Lemma getStructName_ptr x : kindOf x = KStruct → getStructName (GoPtr x) = getStructName x.
Proof. by destruct x. Qed.

Lemma flattenStruct_ptr x : kindOf x = KStruct → flattenStruct (GoPtr x) = flattenStruct x.
Proof. by destruct x. Qed.

(** X5: a pointer to a struct is treated as the struct: the type name,
    the resolved rules, the initial context, the flattened fields and
    the whole outcome of [Validate] are the same for both. *)
Theorem X5_pointer_to_struct_same `{engine : CelEngine} v x operation
    (repository : RuleSetMap) rules md :
  kindOf x = KStruct →
  getStructName (GoPtr x) = getStructName x ∧
  GetRulesFor (GoPtr x) operation repository = GetRulesFor x operation repository ∧
  NewValidationMetadata (GoPtr x) operation repository
    = NewValidationMetadata x operation repository ∧
  flattenStruct (GoPtr x) = flattenStruct x ∧
  Validate v (GoPtr x) rules md = Validate v x rules md.
Proof.
  intros Hk. pose proof (getStructName_ptr x Hk) as Hname.
  pose proof (flattenStruct_ptr x Hk) as Hflat.
  split; [done|]. split; [|split; [|split; [done|]]].
  - unfold GetRulesFor. by rewrite Hname.
  - unfold NewValidationMetadata. by rewrite Hname.
  - unfold Validate, buildEnv. by rewrite Hflat.
Qed.

Lemma X5_witness :
  @Validate Toy.engine Toy.strict (GoPtr Toy.sample) Toy.rules1 Toy.md0
    = @Validate Toy.engine Toy.strict Toy.sample Toy.rules1 Toy.md0.
Proof.
  apply (X5_pointer_to_struct_same (engine := Toy.engine) Toy.strict Toy.sample
           "Create" Toy.repo Toy.rules1 Toy.md0).
  reflexivity.
Defined.

(** ** The resolver: what it keeps *)

Lemma GetRulesFor_mergedRules obj operation (rules : RuleSetMap) :
  GetRulesFor obj operation rules = mergedRules obj operation rules.
Proof.
  unfold GetRulesFor, mergedRules.
  destruct (rules !! getStructName obj) as [structRules|]; [|done].
  unfold dedupByRule. rewrite fold_left_app.
  assert (H0 : ∀ t, is_Some ((∅ : gmap string bool) !! t)
                    ↔ t ∈ Rule <$> ([] : list RuleEntry)).
  { intros t. rewrite lookup_empty. split; [by intros []|by intros ?%elem_of_nil]. }
  destruct (structRules !! "Default") as [defaultRules|]; cbn [default].
  - destruct (mergeBucket_keepFirst defaultRules [] ∅ H0) as (seen1 & Hm1 & Hseen1).
    cbn [fmap list_fmap] in Hm1. rewrite Hm1.
    destruct (structRules !! operation) as [opRules|]; cbn [default].
    + destruct (mergeBucket_keepFirst opRules _ _ Hseen1) as (seen2 & -> & _).
      cbn [fst]. apply list_fmap_ext. intros _ r _.
      apply filterEnabledRules_pruneDisabled.
    + cbn [fst enabledOnly fold_left]. apply list_fmap_ext. intros _ r _.
      apply filterEnabledRules_pruneDisabled.
  - cbn [enabledOnly fold_left].
    destruct (structRules !! operation) as [opRules|]; cbn [default]; [|done].
    destruct (mergeBucket_keepFirst opRules [] ∅ H0) as (seen2 & Hm2 & _).
    cbn [fmap list_fmap] in Hm2. rewrite Hm2. cbn [fst].
    apply list_fmap_ext. intros _ r _. apply filterEnabledRules_pruneDisabled.
Qed.

(** X6: filtering is idempotent: a rule that went through
    [filterEnabledRules] is not changed by going through it again. *)
Theorem X6_filterEnabledRules_idempotent r :
  filterEnabledRules (filterEnabledRules r) = filterEnabledRules r.
Proof.
  rewrite !filterEnabledRules_pruneDisabled. apply pruneDisabled_id.
  intros e He. by eapply pruneDisabled_all_enabled.
Qed.

Lemma fold_keepFirst_elems l kept x :
  x ∈ fold_left keepFirst l kept → x ∈ kept ∨ x ∈ l.
Proof.
  revert kept. induction l as [|r l IH]; intros kept Hx; [by left|].
  cbn [fold_left] in Hx. apply IH in Hx as [Hx|Hx]; [|right; by right].
  unfold keepFirst in Hx. case_bool_decide; [by left|].
  apply elem_of_app in Hx as [?|Hx%list_elem_of_singleton]; [by left|].
  subst x. right. left.
Qed.

Lemma fold_keepFirst_texts l kept t :
  t ∈ Rule <$> fold_left keepFirst l kept ↔ t ∈ Rule <$> kept ∨ t ∈ Rule <$> l.
Proof.
  revert kept. induction l as [|r l IH]; intros kept.
  { cbn. rewrite elem_of_nil. tauto. }
  cbn [fold_left fmap list_fmap]. rewrite IH, elem_of_cons.
  unfold keepFirst. case_bool_decide as Hin.
  - split; [tauto|]. intros [?|[->|?]]; tauto.
  - rewrite fmap_app, elem_of_app. cbn [fmap list_fmap].
    rewrite list_elem_of_singleton. tauto.
Qed.

Lemma enabledOnly_elem r l : r ∈ enabledOnly l ↔ r ∈ l ∧ Enabled r = true.
Proof. unfold enabledOnly. rewrite list_elem_of_filter. tauto. Qed.

(** X7: for a type in the repository, every returned rule is the
    filtered copy of an enabled entry of the Default or the operation
    bucket, and no enabled entry is lost: the expression texts of the
    result are exactly the texts of the enabled entries of the two
    buckets. *)
Theorem X7_GetRulesFor_keeps_enabled_texts obj operation (rules : RuleSetMap)
    structRules :
  rules !! getStructName obj = Some structRules →
  let buckets := default [] (structRules !! "Default") ++
                 default [] (structRules !! operation) in
  (∀ x, x ∈ GetRulesFor obj operation rules →
        ∃ r, r ∈ buckets ∧ Enabled r = true ∧ x = filterEnabledRules r) ∧
  (∀ t, t ∈ Rule <$> GetRulesFor obj operation rules
        ↔ ∃ r, r ∈ buckets ∧ Enabled r = true ∧ Rule r = t).
Proof.
  intros Hrepo buckets. rewrite GetRulesFor_mergedRules.
  unfold mergedRules. rewrite Hrepo. unfold dedupByRule.
  set (enabled := enabledOnly (default [] (structRules !! "Default")) ++
                  enabledOnly (default [] (structRules !! operation))).
  assert (Hen : ∀ r, r ∈ enabled ↔ r ∈ buckets ∧ Enabled r = true).
  { intros r. unfold enabled, buckets. rewrite !elem_of_app, !enabledOnly_elem. tauto. }
  split.
  - intros x [r [-> Hr]]%list_elem_of_fmap.
    apply fold_keepFirst_elems in Hr as [Hr|Hr]; [by apply elem_of_nil in Hr|].
    apply Hen in Hr as [? ?]. exists r. by rewrite filterEnabledRules_pruneDisabled.
  - intros t. rewrite <- list_fmap_compose.
    rewrite (list_fmap_ext (Rule ∘ pruneDisabled) Rule) by (by intros _ [] _).
    rewrite fold_keepFirst_texts. cbn [fmap list_fmap]. rewrite elem_of_nil.
    rewrite list_elem_of_fmap. split.
    + intros [[]|(r & -> & Hr)]. apply Hen in Hr as [? ?]. by exists r.
    + intros (r & Hr & Hen' & <-). right. exists r. split; [done|]. by apply Hen.
Qed.

Lemma fold_keepFirst_absorbed l kept :
  (∀ r, r ∈ l → Rule r ∈ Rule <$> kept) → fold_left keepFirst l kept = kept.
Proof.
  induction l as [|r l IH]; intros Hl; [done|].
  cbn [fold_left]. unfold keepFirst at 2.
  rewrite bool_decide_eq_true_2 by (apply Hl; left).
  apply IH. intros r' Hr'. apply Hl. by right.
Qed.

(** X8: for a type in the repository, asking for an operation that has
    no bucket gives the same rules as asking for ["Default"]: the
    Default bucket merged with itself adds nothing. *)
Theorem X8_missing_operation_is_Default obj operation (rules : RuleSetMap)
    structRules :
  rules !! getStructName obj = Some structRules →
  structRules !! operation = None →
  GetRulesFor obj operation rules = GetRulesFor obj "Default" rules.
Proof.
  intros Hrepo Hop. rewrite !GetRulesFor_mergedRules. unfold mergedRules.
  rewrite Hrepo, Hop. cbn [default]. f_equal. unfold dedupByRule.
  rewrite !fold_left_app.
  change (enabledOnly []) with ([] : list RuleEntry). cbn [fold_left].
  symmetry. apply fold_keepFirst_absorbed.
  intros r Hr. apply fold_keepFirst_texts. right. by apply list_elem_of_fmap_2.
Qed.

(** ** The evaluation loop, with its context *)





Section EvalInContext.
Context `{engine : CelEngine}.
Variable v : Validator.
Variable env : Env.
Variable vars : gmap string GoValue.

(** *** Induction on a run that knows where it is

    As [eval_run], with the sibling list and the context of the loop at
    hand: a step sees the entry at its index in the list, and the
    recursion into the children of a passing entry must keep the
    property [C] of list and context. *)
Section ContextInd.
Variable R : EvalState → EvalState → option GoError → Prop.
Variable C : list RuleEntry → ValidationMetadata → Prop.
Hypothesis R_refl : ∀ st, R st st None.
Hypothesis R_own : ∀ siblings md entry (i : nat) st,
  C siblings md → siblings !! i = Some entry → skipped entry st = false →
  R st (afterOwn env vars entry (Z.of_nat i) md st)
    (match setupError env (Rule entry) with
     | Some e => halts v (Some e)
     | None => None
     end).
Hypothesis R_trans : ∀ st1 st2 st3 oe,
  R st1 st2 None → R st2 st3 oe → R st1 st3 oe.
Hypothesis R_halts : ∀ st st' oe, R st st' oe → R st st' (halts v oe).
Hypothesis C_child : ∀ siblings md entry (i : nat),
  C siblings md → siblings !! i = Some entry → Enabled entry = true →
  setupError env (Rule entry) = None →
  Passed (resultOf env vars entry (Z.of_nat i) md) = true →
  C (Then entry) (childMetadataOf entry md).

Local Abbreviation entryRunC :=
  (λ entry : RuleEntry,
     ∀ siblings md (i : nat) st,
       C siblings md → siblings !! i = Some entry →
       R st (evalEntry v env vars entry (Z.of_nat i) md st).1
            (evalEntry v env vars entry (Z.of_nat i) md st).2).

Lemma evalFrom_run_in_context l :
  Forall entryRunC l →
  ∀ siblings md (k : nat) st,
    C siblings md →
    (∀ j e, l !! j = Some e → siblings !! (k + j)%nat = Some e) →
    R st (evalFrom v env vars l (Z.of_nat k) md st).1
         (evalFrom v env vars l (Z.of_nat k) md st).2.
Proof.
  induction 1 as [|e l He _ IH]; intros siblings md k st HC Hsub; [apply R_refl|].
  rewrite evalFrom_cons.
  assert (Hk : siblings !! k = Some e).
  { rewrite <- (Nat.add_0_r k). by apply Hsub. }
  specialize (He siblings md k st HC Hk).
  destruct (evalEntry v env vars e (Z.of_nat k) md st) as [st' [err|]];
    cbn [fst snd] in *; [done|].
  eapply R_trans; [exact He|].
  replace (Z.of_nat k + 1) with (Z.of_nat (S k)) by lia.
  apply (IH siblings md (S k) st' HC).
  intros j e' Hj. replace (S k + j)%nat with (k + S j)%nat by lia. by apply Hsub.
Qed.

Lemma evalEntry_run_in_context entry : entryRunC entry.
Proof.
  induction entry as [entry IH] using RuleEntry_tree_ind.
  intros siblings md i st HC Hi. rewrite evalEntry_unfold.
  destruct (skipped entry st) eqn:Hskip; [apply R_refl|].
  pose proof (R_own siblings md entry i st HC Hi Hskip) as Hown.
  destruct (setupError env (Rule entry)) as [e|] eqn:Hsetup; cbn [fst snd]; [done|].
  destruct (Passed (resultOf env vars entry (Z.of_nat i) md)) eqn:Hpass;
    cbn [andb]; [|done].
  destruct (Z.ltb 0 (Z.of_nat (length (Then entry)))); cbn [fst snd]; [|done].
  eapply R_trans; [exact Hown|]. apply R_halts.
  apply (evalFrom_run_in_context (Then entry) IH (Then entry) _ 0%nat); [|done].
  apply (C_child siblings md entry i); try done.
  by apply skipped_false in Hskip as [? _].
Qed.

Lemma eval_run_in_context rules md st :
  C rules md →
  R st (eval v env vars rules md st).1 (eval v env vars rules md st).2.
Proof.
  intros HC.
  apply (evalFrom_run_in_context rules) with (siblings := rules) (k := 0%nat);
    [|done|done].
  apply Forall_forall. intros e _. apply evalEntry_run_in_context.
Qed.
End ContextInd.

Lemma resultOf_type_and_operation entry i md :
  StructName (Metadata (resultOf env vars entry i md)) = StructName md ∧
  Operation (Metadata (resultOf env vars entry i md)) = Operation md.
Proof.
  unfold resultOf. destruct (Compile env (Rule entry)) as [ast|e]; [|done].
  by destruct (Program env ast).
Qed.


Lemma eval_type_and_operation rules md0 st :
  Forall (λ r, StructName (Metadata r) = StructName md0 ∧
               Operation (Metadata r) = Operation md0) (results st) →
  Forall (λ r, StructName (Metadata r) = StructName md0 ∧
               Operation (Metadata r) = Operation md0)
    (results (eval v env vars rules md0 st).1).
Proof.
  apply (eval_run_in_context
           (λ st st' _,
              Forall (λ r, StructName (Metadata r) = StructName md0 ∧
                           Operation (Metadata r) = Operation md0) (results st) →
              Forall (λ r, StructName (Metadata r) = StructName md0 ∧
                           Operation (Metadata r) = Operation md0) (results st'))
           (λ _ md, StructName md = StructName md0 ∧ Operation md = Operation md0));
    try done.
  - intros siblings md entry i st0 [Hs Ho] _ _ Hst.
    rewrite results_afterOwn. apply Forall_app. split; [done|].
    apply Forall_singleton.
    destruct (resultOf_type_and_operation entry (Z.of_nat i) md) as [-> ->]. done.
  - auto.
Qed.


End EvalInContext.

(** ** [Validate]: what every result carries *)

Section ValidateMore.
Context `{engine : CelEngine}.

(** X9: every result carries the type name and the operation of the
    context given to [Validate], however deep its rule is nested. *)
Theorem X9_results_keep_type_and_operation v obj rules md env vars rs err r :
  buildEnv v obj = Some (inl (env, vars)) →
  Validate v obj rules md = Some (Some rs, err) →
  r ∈ rs →
  StructName (Metadata r) = StructName md ∧ Operation (Metadata r) = Operation md.
Proof.
  intros Hb HV Hr. rewrite (Validate_eval _ _ _ _ _ _ Hb) in HV.
  injection HV as <- _.
  pose proof (eval_type_and_operation v env vars rules md initialState
                (Forall_nil_2 _)) as Hall.
  rewrite Forall_forall in Hall. by apply Hall.
Qed.


(** X11: a passing result carries no error and no message, and its
    expression compiled and built; a result that carries an error did
    not pass. *)
Theorem X11_passing_results_are_clean v obj rules md env vars rs err r :
  buildEnv v obj = Some (inl (env, vars)) →
  Validate v obj rules md = Some (Some rs, err) →
  r ∈ rs →
  (Passed r = true →
     Error r = None ∧ Message r = "" ∧ setupError env (vrRule r) = None) ∧
  (Error r ≠ None → Passed r = false).
Proof.
  intros Hb HV Hr.
  pose proof (Validate_results_origin _ _ _ _ _ _ _ _ Hb HV) as Horigin.
  rewrite Forall_forall in Horigin.
  destruct (Horigin r Hr) as (entry & i & md' & _ & _ & ->).
  rewrite vrRule_resultOf. unfold resultOf, setupError.
  destruct (Compile env (Rule entry)) as [ast|e]; [|by split].
  destruct (Program env ast) as [prg|e]; [|by split].
  cbn [Passed Error Message evalResult].
  destruct (Eval prg vars) as [out [e|]]; cbn [fst snd].
  - by split.
  - rewrite bool_decide_eq_true_2 by done. cbn [andb].
    destruct (isTrue out); by split.
Qed.

(** X12: [Validate] returns at most as many results as the rule tree
    has entries. *)
Theorem X12_results_bounded_by_tree v obj rules md env vars rs err :
  buildEnv v obj = Some (inl (env, vars)) →
  Validate v obj rules md = Some (Some rs, err) →
  (length rs ≤ length (allEntries rules))%nat.
Proof.
  intros Hb HV.
  pose proof (Validate_results_origin _ _ _ _ _ _ _ _ Hb HV) as Horigin.
  rewrite (Validate_eval _ _ _ _ _ _ Hb) in HV. injection HV as Hrs _.
  pose proof (eval_seenMatchesResults v env vars rules 0 md initialState
                seenMatchesResults_initial) as (Hnd & _ & _).
  change (evalFrom v env vars rules 0 md initialState)
    with (eval v env vars rules md initialState) in Hnd.
  rewrite Hrs in Hnd.
  rewrite <- (length_fmap vrRule rs), <- (length_fmap Rule (allEntries rules)).
  apply submseteq_length, NoDup_submseteq; [done|].
  intros t (r & -> & Hr)%list_elem_of_fmap.
  rewrite Forall_forall in Horigin.
  destruct (Horigin r Hr) as (entry & i & md' & Hin & _ & ->).
  rewrite vrRule_resultOf. by apply list_elem_of_fmap_2.
Qed.


End ValidateMore.

(** ** With and without partial evaluation *)

Section StrictAndLenient.
Context `{engine : CelEngine}.
Variable strict lenient : Validator.
Variable env : Env.
Variable vars : gmap string GoValue.
Hypothesis strict_off : partialEval strict = false.
Hypothesis lenient_on : partialEval lenient = true.



Local Abbreviation agree :=
  (λ entry : RuleEntry,
     ∀ i md st,
       ((evalEntry strict env vars entry i md st).2 = None →
        evalEntry lenient env vars entry i md st
          = evalEntry strict env vars entry i md st) ∧
       results (evalEntry strict env vars entry i md st).1
         `prefix_of` results (evalEntry lenient env vars entry i md st).1).




End StrictAndLenient.



(** ** Resolving, then validating *)

Lemma GetRulesFor_enabled obj operation (rules : RuleSetMap) x :
  x ∈ GetRulesFor obj operation rules → Enabled x = true.
Proof.
  rewrite GetRulesFor_mergedRules. unfold mergedRules, dedupByRule.
  destruct (rules !! getStructName obj) as [structRules|]; [|by intros ?%elem_of_nil].
  intros (r & -> & Hr)%list_elem_of_fmap.
  apply fold_keepFirst_elems in Hr as [Hr|Hr]; [by apply elem_of_nil in Hr|].
  apply elem_of_app in Hr as [Hr|Hr]; apply enabledOnly_elem in Hr as [_ Hr];
    by destruct r.
Qed.

Lemma GetRulesFor_NoDup obj operation (rules : RuleSetMap) :
  NoDup (Rule <$> GetRulesFor obj operation rules).
Proof.
  rewrite GetRulesFor_mergedRules. unfold mergedRules.
  destruct (rules !! getStructName obj) as [structRules|]; [|constructor].
  rewrite <- list_fmap_compose.
  rewrite (list_fmap_ext (Rule ∘ pruneDisabled) Rule) by (by intros _ [] _).
  apply fold_keepFirst_NoDup. constructor.
Qed.

Lemma Validate_covers `{engine : CelEngine} v obj rules md env vars rs :
  buildEnv v obj = Some (inl (env, vars)) →
  Validate v obj rules md = Some (Some rs, None) →
  ∀ e, e ∈ rules → Enabled e = true → Rule e ∈ vrRule <$> rs.
Proof.
  intros Hb HV e He Hen. rewrite (Validate_eval _ _ _ _ _ _ Hb) in HV.
  injection HV as Hrs Herr.
  pose proof (eval_seenMatchesResults v env vars rules 0 md initialState
                seenMatchesResults_initial) as (_ & _ & Hseen).
  change (evalFrom v env vars rules 0 md initialState)
    with (eval v env vars rules md initialState) in Hseen.
  assert (Hcov : seenRule (eval v env vars rules md initialState).1 (Rule e) = true).
  { eapply (evalFrom_covers v env vars rules 0 md initialState); [|done..].
    change (evalFrom v env vars rules 0 md initialState)
      with (eval v env vars rules md initialState).
    destruct (eval v env vars rules md initialState) as [st oe]. cbn in *. by subst. }
  unfold seenRule in Hcov. rewrite Hseen in Hcov. rewrite <- Hrs.
  by case_bool_decide.
Qed.

(** X15: when [Validate] is run on the rules [GetRulesFor] resolved and
    returns the nil error (as it always does with partial evaluation),
    every resolved rule has a result, so there are at least as many
    results as resolved rules. *)
Theorem X15_resolved_rules_all_evaluated `{engine : CelEngine}
    v obj operation (repository : RuleSetMap) md env vars rs :
  buildEnv v obj = Some (inl (env, vars)) →
  Validate v obj (GetRulesFor obj operation repository) md = Some (Some rs, None) →
  (∀ x, x ∈ GetRulesFor obj operation repository → Rule x ∈ vrRule <$> rs) ∧
  (length (GetRulesFor obj operation repository) ≤ length rs)%nat.
Proof.
  intros Hb HV.
  assert (Hall : ∀ x, x ∈ GetRulesFor obj operation repository →
                      Rule x ∈ vrRule <$> rs).
  { intros x Hx. apply (Validate_covers _ _ _ _ _ _ _ Hb HV x Hx).
    by eapply GetRulesFor_enabled. }
  split; [exact Hall|].
  rewrite <- (length_fmap Rule), <- (length_fmap vrRule rs).
  apply submseteq_length, NoDup_submseteq; [apply GetRulesFor_NoDup|].
  intros t (x & -> & Hx)%list_elem_of_fmap. by apply Hall.
Qed.

(** ** Building a validator *)

Lemma NewValidator_snoc opts opt :
  NewValidator (opts ++ [opt]) = opt (NewValidator opts).
Proof. unfold NewValidator. by rewrite fold_left_app. Qed.

(** X16: a validator built without options evaluates strictly; one
    whose last option is [WithPartialEval] evaluates partially, whatever
    the options before it; and built from [WithPartialEval] options
    only, it evaluates partially exactly when there is at least one. *)
Theorem X16_NewValidator_options (opts : list ValidatorOption) :
  partialEval (NewValidator []) = false ∧
  partialEval (NewValidator (opts ++ [WithPartialEval])) = true ∧
  (Forall (λ opt, opt = WithPartialEval) opts →
   partialEval (NewValidator opts) = bool_decide (opts ≠ [])).
Proof.
  split; [done|]. split; [by rewrite NewValidator_snoc|].
  intros Hall. destruct opts as [|opt opts _] using rev_ind; [done|].
  apply Forall_app in Hall as [_ Hlast]. rewrite Forall_singleton in Hlast.
  subst opt. rewrite NewValidator_snoc. cbn.
  symmetry. apply bool_decide_eq_true_2. by destruct opts.
Qed.

(** ** The further properties on the sample record and repository *)

Lemma X7_witness :
  "IsActive" ∈ Rule <$> GetRulesFor Toy.sample "Create" Toy.repo.
Proof.
  destruct (X7_GetRulesFor_keeps_enabled_texts Toy.sample "Create" Toy.repo
              (default ∅ (Toy.repo !! "Sample"))) as [_ Htexts].
  - vm_compute. reflexivity.
  - apply Htexts. exists (Toy.rule "IsActive" []).
    split; [|split; reflexivity].
    vm_compute. do 3 right. left.
Defined.

Lemma X8_witness :
  GetRulesFor Toy.sample "Update" Toy.repo = GetRulesFor Toy.sample "Default" Toy.repo.
Proof.
  apply (X8_missing_operation_is_Default Toy.sample "Update" Toy.repo
           (default ∅ (Toy.repo !! "Sample"))).
  - vm_compute. reflexivity.
  - vm_compute. reflexivity.
Defined.

Lemma X9_witness :
  StructName (Metadata Toy.verifiedResult) = StructName Toy.md0 ∧
  Operation (Metadata Toy.verifiedResult) = Operation Toy.md0.
Proof.
  apply (X9_results_keep_type_and_operation (engine := Toy.engine)
           Toy.lenient Toy.sample Toy.rules1 Toy.md0 Toy.decls Toy.fields
           (Toy.resultsOf Toy.lenientRun) (Toy.errorOf Toy.lenientRun)).
  - vm_compute. reflexivity.
  - vm_compute. reflexivity.
  - rewrite Toy_lenient_results. right. left.
Defined.


Lemma X11_witness :
  Error Toy.activeResult = None ∧ Message Toy.activeResult = "" ∧
  Passed Toy.divisionResult = false.
Proof.
  destruct (X11_passing_results_are_clean (engine := Toy.engine)
              Toy.lenient Toy.sample Toy.rules1 Toy.md0 Toy.decls Toy.fields
              (Toy.resultsOf Toy.lenientRun) (Toy.errorOf Toy.lenientRun)
              Toy.activeResult) as [Hpass _].
  { vm_compute. reflexivity. }
  { vm_compute. reflexivity. }
  { rewrite Toy_lenient_results. left. }
  destruct (X11_passing_results_are_clean (engine := Toy.engine)
              Toy.lenient Toy.sample Toy.rules1 Toy.md0 Toy.decls Toy.fields
              (Toy.resultsOf Toy.lenientRun) (Toy.errorOf Toy.lenientRun)
              Toy.divisionResult) as [_ Herr].
  { vm_compute. reflexivity. }
  { vm_compute. reflexivity. }
  { rewrite Toy_lenient_results. do 2 right. left. }
  destruct (Hpass eq_refl) as (He & Hm & _).
  split; [exact He|]. split; [exact Hm|]. apply Herr. discriminate.
Defined.

Lemma X12_witness :
  (length (Toy.resultsOf Toy.lenientRun) ≤ length (allEntries Toy.rules1))%nat.
Proof.
  apply (X12_results_bounded_by_tree (engine := Toy.engine)
           Toy.lenient Toy.sample Toy.rules1 Toy.md0 Toy.decls Toy.fields
           (Toy.resultsOf Toy.lenientRun) (Toy.errorOf Toy.lenientRun)).
  - vm_compute. reflexivity.
  - vm_compute. reflexivity.
Defined.


Lemma X15_witness :
  (length (GetRulesFor Toy.sample "Create" Toy.repo)
   ≤ length (Toy.resultsOf
               (@Validate Toy.engine Toy.lenient Toy.sample
                  (GetRulesFor Toy.sample "Create" Toy.repo) Toy.md0)))%nat.
Proof.
  apply (X15_resolved_rules_all_evaluated (engine := Toy.engine)
           Toy.lenient Toy.sample "Create" Toy.repo Toy.md0 Toy.decls Toy.fields).
  - vm_compute. reflexivity.
  - vm_compute. reflexivity.
Defined.

Lemma X16_witness :
  partialEval (NewValidator [WithPartialEval; WithPartialEval]) = true.
Proof.
  destruct (X16_NewValidator_options [WithPartialEval; WithPartialEval])
    as (_ & _ & Hall).
  rewrite Hall by (repeat constructor). reflexivity.
Defined.

(** ** Chain paths of the results *)

Section ChainPaths.
Context `{engine : CelEngine}.

Lemma extendChainPath_extends current next :
  ∃ s, extendChainPath current next = current +:+ s.
Proof.
  unfold extendChainPath. destruct (String.eqb_spec current "") as [->|_].
  - by exists next.
  - by exists (" > " +:+ next).
Qed.

Lemma eval_chain_paths v env vars rules md0 st :
  Forall (λ r, ∃ s, ChainPath (Metadata r) = ChainPath md0 +:+ s) (results st) →
  Forall (λ r, ∃ s, ChainPath (Metadata r) = ChainPath md0 +:+ s)
    (results (eval v env vars rules md0 st).1).
Proof.
  apply (eval_run_in_context v env vars
           (λ st st' _,
              Forall (λ r, ∃ s, ChainPath (Metadata r) = ChainPath md0 +:+ s)
                (results st) →
              Forall (λ r, ∃ s, ChainPath (Metadata r) = ChainPath md0 +:+ s)
                (results st'))
           (λ _ md, ∃ s, ChainPath md = ChainPath md0 +:+ s)); try done.
  - intros siblings md entry i st0 [s Hs] _ _ Hst.
    rewrite results_afterOwn. apply Forall_app. split; [done|].
    apply Forall_singleton.
    destruct (resultOf_metadata env vars entry (Z.of_nat i) md) as (_ & _ & m & ->).
    exists (s +:+ m). by rewrite Hs, string_app_assoc.
  - auto.
  - intros siblings md entry i [s Hs] _ _ _ _. cbn [childMetadataOf ChainPath].
    destruct (extendChainPath_extends (ChainPath md) "then") as [t ->].
    exists (s +:+ t). by rewrite Hs, string_app_assoc.
  - exists "". by rewrite string_app_nil_r.
Qed.

(** X17: the chain path of every result extends the chain path of the
    context given to [Validate]; the path of a result whose expression
    does not compile ends with the compile marker, and the path of one
    whose program cannot be built ends with the program marker, each
    result carrying the respective error. *)
Theorem X17_result_chain_paths v obj rules md env vars rs err r :
  buildEnv v obj = Some (inl (env, vars)) →
  Validate v obj rules md = Some (Some rs, err) →
  r ∈ rs →
  (∃ s, ChainPath (Metadata r) = ChainPath md +:+ s) ∧
  (∀ e, Compile env (vrRule r) = inr e →
        Error r = Some e ∧
        ∃ p, ChainPath (Metadata r) = p +:+ " > compileError") ∧
  (∀ ast e, Compile env (vrRule r) = inl ast → Program env ast = inr e →
        Error r = Some e ∧
        ∃ p, ChainPath (Metadata r) = p +:+ " > programError").
Proof.
  intros Hb HV Hr. split.
  - rewrite (Validate_eval _ _ _ _ _ _ Hb) in HV. injection HV as <- _.
    pose proof (eval_chain_paths v env vars rules md initialState (Forall_nil_2 _))
      as Hall.
    rewrite Forall_forall in Hall. by apply Hall.
  - pose proof (Validate_results_origin _ _ _ _ _ _ _ _ Hb HV) as Horigin.
    rewrite Forall_forall in Horigin.
    destruct (Horigin r Hr) as (entry & i & md' & _ & _ & ->).
    rewrite vrRule_resultOf. unfold resultOf. split.
    + intros e ->. split; [done|]. by eexists.
    + intros ast e -> ->. split; [done|]. by eexists.
Qed.

End ChainPaths.

Lemma X17_witness :
  ∃ p, ChainPath (Metadata Toy.undeclaredResult) = p +:+ " > compileError".
Proof.
  destruct (X17_result_chain_paths (engine := Toy.engine)
              Toy.lenient Toy.sample Toy.rules1 Toy.md0 Toy.decls Toy.fields
              (Toy.resultsOf Toy.lenientRun) (Toy.errorOf Toy.lenientRun)
              Toy.undeclaredResult) as (_ & Hcompile & _).
  - vm_compute. reflexivity.
  - vm_compute. reflexivity.
  - rewrite Toy_lenient_results. do 3 right. left.
  - destruct (Hcompile (mkError "undeclared reference to Nope")) as [_ Hp].
    + vm_compute. reflexivity.
    + exact Hp.
Defined.

(** ** Results traced to their entries *)

Section EvaluatedEntries.
Context `{engine : CelEngine}.
Variable v : Validator.
Variable env : Env.
Variable vars : gmap string GoValue.


(** The loop over a list that continues another. *)
Lemma evalFrom_app before l i md st :
  evalFrom v env vars (before ++ l) i md st =
    match evalFrom v env vars before i md st with
    | (st1, Some e) => (st1, Some e)
    | (st1, None) => evalFrom v env vars l (i + Z.of_nat (length before)) md st1
    end.
Proof.
  revert i st. induction before as [|b before IH]; intros i st.
  { cbn [app length evalFrom]. by rewrite Z.add_0_r. }
  cbn [app]. rewrite !evalFrom_cons.
  destruct (evalEntry v env vars b i md st) as [st' [e|]]; [done|].
  rewrite IH. cbn [length].
  by replace (i + 1 + Z.of_nat (length before))
    with (i + Z.of_nat (S (length before))) by lia.
Qed.

Lemma setupError_marker entry i md e :
  setupError env (Rule entry) = Some e →
  ∃ marker,
    (marker = " > compileError" ∨ marker = " > programError") ∧
    resultOf env vars entry i md = setupFailure marker entry i md e.
Proof.
  unfold setupError, resultOf. destruct (Compile env (Rule entry)) as [ast|e'].
  - destruct (Program env ast) as [prg|e']; [done|].
    intros [= ->]. exists " > programError". split; [by right|done].
  - intros [= ->]. exists " > compileError". split; [by left|done].
Qed.

End EvaluatedEntries.

(** ** Execution errors, halting, children *)

Section ClaimsOnTheLoop.
Context `{engine : CelEngine}.


(** C2: without partial evaluation, when the loop over a list has run
    over the entries before one without an error and that one, not
    skipped, fails to compile or to build, the loop returns at once: its
    state is the state reached so far with the failing entry marked seen
    and its failure result appended, its error is that failure, and the
    entries after it play no part; an error returned by any iteration
    ends the loop of its list, and an error returned by the loop over an
    entry's children ends that entry's iteration with the same state, so
    the halt passes every enclosing level.  [Validate] then returns the
    results so far with the failure result last and the failure as
    overall error; in every strict call a failure result is the last
    result and a returned error is the last result's, and an enabled
    top-level rule that cannot compile or build forces a non-nil error. *)
Theorem C2_setup_failure_halts v env vars :
  partialEval v = false →
  (∀ before entry after i md st st1 e,
     evalFrom v env vars before i md st = (st1, None) →
     skipped entry st1 = false → setupError env (Rule entry) = Some e →
     ∃ marker,
       (marker = " > compileError" ∨ marker = " > programError") ∧
       evalFrom v env vars (before ++ entry :: after) i md st =
         (appendResult
            (setupFailure marker entry (i + Z.of_nat (length before)) md e)
            (markSeen (Rule entry) st1),
          Some e)) ∧
  (∀ before entry after i md st st1 st2 e,
     evalFrom v env vars before i md st = (st1, None) →
     evalEntry v env vars entry (i + Z.of_nat (length before)) md st1 = (st2, Some e) →
     evalFrom v env vars (before ++ entry :: after) i md st = (st2, Some e)) ∧
  (∀ entry i md st st' e,
     skipped entry st = false → setupError env (Rule entry) = None →
     Passed (resultOf env vars entry i md) = true →
     evalFrom v env vars (Then entry) 0 (childMetadataOf entry md)
       (afterOwn env vars entry i md st) = (st', Some e) →
     evalEntry v env vars entry i md st = (st', Some e)) ∧
  (∀ obj before entry after md st1 e,
     buildEnv v obj = Some (inl (env, vars)) →
     eval v env vars before md initialState = (st1, None) →
     skipped entry st1 = false → setupError env (Rule entry) = Some e →
     ∃ marker,
       (marker = " > compileError" ∨ marker = " > programError") ∧
       Validate v obj (before ++ entry :: after) md =
         Some (Some (results st1 ++
                     [setupFailure marker entry (Z.of_nat (length before)) md e]),
               Some e)) ∧
  (∀ obj rules md rs err,
     buildEnv v obj = Some (inl (env, vars)) →
     Validate v obj rules md = Some (Some rs, err) →
     (∀ rs1 r rs2 e,
        rs = rs1 ++ r :: rs2 → setupError env (vrRule r) = Some e →
        rs2 = [] ∧ err = Some e ∧ Error r = Some e ∧ Passed r = false ∧
        Forall (reachedExecution env) rs1) ∧
     (∀ e, err = Some e →
        ∃ rs1 r, rs = rs1 ++ [r] ∧ setupError env (vrRule r) = Some e ∧
                 Error r = Some e ∧ Passed r = false) ∧
     ((∃ x, x ∈ rules ∧ Enabled x = true ∧ setupError env (Rule x) ≠ None) →
      err ≠ None)).
Proof.
  intros Hstrict.
  assert (Hhalts : ∀ oe, halts v oe = oe).
  { intros oe. unfold halts. by rewrite Hstrict. }
  assert (Hfail : ∀ entry j md st e,
            skipped entry st = false → setupError env (Rule entry) = Some e →
            ∃ marker,
              (marker = " > compileError" ∨ marker = " > programError") ∧
              evalEntry v env vars entry j md st =
                (appendResult (setupFailure marker entry j md e)
                   (markSeen (Rule entry) st), Some e)).
  { intros entry j md st e Hskip Hsetup.
    destruct (setupError_marker env vars entry j md e Hsetup) as (marker & Hm & Hres).
    exists marker. split; [done|].
    rewrite evalEntry_unfold, Hskip, Hsetup, Hhalts. unfold afterOwn.
    by rewrite Hres. }
  assert (Hprop : ∀ before entry after i md st st1 st2 e,
            evalFrom v env vars before i md st = (st1, None) →
            evalEntry v env vars entry (i + Z.of_nat (length before)) md st1
              = (st2, Some e) →
            evalFrom v env vars (before ++ entry :: after) i md st = (st2, Some e)).
  { intros before entry after i md st st1 st2 e Hbefore Hentry.
    by rewrite evalFrom_app, Hbefore, evalFrom_cons, Hentry. }
  split; [|split; [exact Hprop|split; [|split]]].
  - intros before entry after i md st st1 e Hbefore Hskip Hsetup.
    destruct (Hfail entry (i + Z.of_nat (length before)) md st1 e Hskip Hsetup)
      as (marker & Hm & Hentry).
    exists marker. split; [done|]. by eapply Hprop.
  - intros entry i md st st' e Hskip Hsetup Hpass Hchildren.
    rewrite evalEntry_unfold, Hskip, Hsetup, Hpass.
    destruct (Then entry) as [|c cs] eqn:Hthen; [discriminate Hchildren|].
    cbn [andb length]. change (Z.ltb 0 (Z.of_nat (S (length cs)))) with true.
    cbn iota zeta. rewrite Hchildren. cbn [fst snd]. by rewrite Hhalts.
  - intros obj before entry after md st1 e Hb Hbefore Hskip Hsetup.
    destruct (Hfail entry (0 + Z.of_nat (length before)) md st1 e Hskip Hsetup)
      as (marker & Hm & Hentry).
    exists marker. split; [done|].
    rewrite (Validate_eval _ _ _ _ _ _ Hb). unfold eval in *.
    rewrite (Hprop before entry after 0 md initialState st1 _ e Hbefore Hentry).
    cbn [fst snd results appendResult markSeen]. by rewrite Z.add_0_l.
  - intros obj rules md rs err Hb HV.
    destruct (Validate_runOutcome _ _ _ _ _ _ _ _ Hb HV) as [_ Hout].
    split; [|split].
    + intros rs1 r rs2 e Hsplit Hf.
      assert (Hnot : ¬ reachedExecution env r).
      { unfold reachedExecution. by rewrite Hf. }
      destruct err as [e'|].
      * destruct Hout as (rs' & r' & Hrs & Hclean & Hr' & Herr & Hpass).
        rewrite Hsplit in Hrs.
        destruct (last_is_only_exception _ _ _ _ _ _ Hrs Hclean Hnot)
          as (-> & -> & ->).
        rewrite Hf in Hr'. injection Hr' as ->. done.
      * specialize (Hout Hstrict). rewrite Hsplit in Hout.
        apply Forall_app in Hout as [_ Hout].
        by apply Forall_cons in Hout as [? _].
    + intros e ->. destruct Hout as (rs' & r & ? & _ & ? & ? & ?).
      by exists rs', r.
    + intros (x & Hx & Hen & Hbad) ->.
      pose proof (Validate_covers _ _ _ _ _ _ _ Hb HV x Hx Hen) as Hcov.
      apply list_elem_of_fmap in Hcov as (r & Hrule & Hr).
      specialize (Hout Hstrict). rewrite Forall_forall in Hout.
      specialize (Hout r Hr). unfold reachedExecution in Hout.
      by rewrite <- Hrule in Hout.
Qed.




End ClaimsOnTheLoop.

(** ** These statements on the sample runs *)


Lemma C2_witness :
  Toy.errorOf Toy.strictRun = Some (mkError "undeclared reference to Nope") ∧
  length (Toy.resultsOf Toy.strictRun) = 4%nat.
Proof.
  destruct (C2_setup_failure_halts (engine := Toy.engine)
              Toy.strict Toy.decls Toy.fields eq_refl)
    as (_ & _ & _ & Hvalidate & _).
  destruct (Hvalidate Toy.sample
              [Toy.parent; Toy.rule "1/0" []; Toy.rule "Active" []]
              (Toy.rule "Nope" []) [Toy.rule "Age" []] Toy.md0
              (eval (engine := Toy.engine) Toy.strict Toy.decls Toy.fields
                 [Toy.parent; Toy.rule "1/0" []; Toy.rule "Active" []]
                 Toy.md0 initialState).1
              (mkError "undeclared reference to Nope"))
    as (marker & _ & HV).
  - vm_compute. reflexivity.
  - vm_compute. reflexivity.
  - vm_compute. reflexivity.
  - vm_compute. reflexivity.
  - unfold Toy.strictRun.
    change Toy.rules1
      with ([Toy.parent; Toy.rule "1/0" []; Toy.rule "Active" []]
              ++ Toy.rule "Nope" [] :: [Toy.rule "Age" []]).
    rewrite HV. cbn [Toy.errorOf Toy.resultsOf]. split; [reflexivity|].
    rewrite length_app. vm_compute. reflexivity.
Defined.

(** C7 as stated fails: the passing parent with one enabled and one
    disabled child, evaluated after a rule with the enabled child's
    text, contributes its own result and no child result. *)
Lemma C7_counterexample :
  @Validate Toy.engine Toy.lenient Toy.sample
    [Toy.rule "Address.Verified" []; Toy.parent] Toy.md0
  = Some (Some [Toy.result "Address.Verified" true None "" "" 0 "";
                Toy.result "Active" true None "" "" 1 ""],
          None).
Proof. vm_compute. reflexivity. Qed.

